(** * font_splitter.py: frequency-ranked font subsetting

    A shallow embedding of [font_splitter.py] and the proofs of its
    specification.  Python integers are unbounded, so they are [Z]; [//] on
    them is floor division, which is [Z.div].  A Python [str] is a sequence
    of Unicode code points and is embedded as [list Z]; the one-character
    strings that [chr] returns are embedded as their code point.  The
    dictionary [char_freq] is a [gmap], the set [chars] a [gset].

    Everything the script obtains from outside (the file system, the font
    reader, the Unicode database, the [pyftsubset] process) is a field of
    the record [world].  [main] starts from the parsed arguments.  Text
    written to standard output is not modelled, and neither are the
    exceptions the script does not handle (an unreadable file, a font that
    does not parse, a directory that cannot be created). *)

From Stdlib Require Import ZArith Lia Ascii String.
From stdpp Require Import gmap strings list fin_maps sorting.

Local Open Scope Z_scope.

(** ** Text *)

(** Code points of a UTF-8 byte sequence; used to write the script's string
    literals as they appear in the source. *)
Fixpoint utf8_decode (bs : list Z) : list Z :=
  match bs with
  | [] => []
  | b0 :: t0 =>
    if b0 <? 0x80 then b0 :: utf8_decode t0
    else match t0 with
    | [] => []
    | b1 :: t1 =>
      if b0 <? 0xE0 then ((b0 - 0xC0) * 64 + (b1 - 0x80)) :: utf8_decode t1
      else match t1 with
      | [] => []
      | b2 :: t2 =>
        if b0 <? 0xF0
        then ((b0 - 0xE0) * 4096 + (b1 - 0x80) * 64 + (b2 - 0x80))
               :: utf8_decode t2
        else match t2 with
        | [] => []
        | b3 :: t3 =>
          ((b0 - 0xF0) * 262144 + (b1 - 0x80) * 4096
           + (b2 - 0x80) * 64 + (b3 - 0x80)) :: utf8_decode t3
        end
      end
    end
  end.

Definition lit (s : string) : list Z :=
  utf8_decode ((λ a, Z.of_N (N_of_ascii a)) <$> list_ascii_of_string s).

Definition nl : list Z := [10].
Definition dquote : list Z := [34].
Definition TAB : Z := 9.
Definition COMMA : Z := 44.
Definition HASH : Z := 35.

(** [str.isspace] of one character: the characters [str.strip()] removes. *)
Definition isspace (c : Z) : bool :=
  ((0x09 <=? c) && (c <=? 0x0D)) || ((0x1C <=? c) && (c <=? 0x20))
  || (c =? 0x85) || (c =? 0xA0) || (c =? 0x1680)
  || ((0x2000 <=? c) && (c <=? 0x200A))
  || (c =? 0x2028) || (c =? 0x2029) || (c =? 0x202F) || (c =? 0x205F)
  || (c =? 0x3000).

(** Stripping, for a given notion of whitespace. *)
Fixpoint lstrip_by (space : Z → bool) (s : list Z) : list Z :=
  match s with
  | [] => []
  | c :: s' => if space c then lstrip_by space s' else s
  end.

Definition rstrip_by (space : Z → bool) (s : list Z) : list Z :=
  reverse (lstrip_by space (reverse s)).

Definition strip_by (space : Z → bool) (s : list Z) : list Z :=
  rstrip_by space (lstrip_by space s).

(** [s.strip()] *)
Definition strip (s : list Z) : list Z := strip_by isspace s.

(** [s.split(sep)] for a one-character separator: every occurrence splits. *)
Fixpoint split (sep : Z) (s : list Z) : list (list Z) :=
  match s with
  | [] => [[]]
  | c :: s' =>
    if c =? sep then [] :: split sep s'
    else match split sep s' with
         | f :: fs => (c :: f) :: fs
         | [] => [[c]]
         end
  end.

(** [s.startswith(c)] for a one-character prefix. *)
Definition startswith (c : Z) (s : list Z) : bool :=
  match s with
  | c0 :: _ => c0 =? c
  | [] => false
  end.

(** [sep.join(parts)] *)
Fixpoint join (sep : list Z) (parts : list (list Z)) : list Z :=
  match parts with
  | [] => []
  | [p] => p
  | p :: ps => p ++ sep ++ join sep ps
  end.

(** ** [int(s)]

    Surrounding whitespace is dropped, one sign is allowed, and the digits
    may be separated by single underscores.  The whitespace [int] drops is
    that of [str.strip()] without the four separators U+001C to U+001F.
    Only the ASCII digits are recognised here; the decimal digits of other
    scripts, which Python accepts as well, are left out, as is the
    interpreter's limit on the number of digits. *)
Definition int_space (c : Z) : bool :=
  isspace c && negb ((0x1C <=? c) && (c <=? 0x1F)).

Definition digit_value (c : Z) : option Z :=
  if (48 <=? c) && (c <=? 57) then Some (c - 48) else None.

Fixpoint int_digits (acc : Z) (after_digit : bool) (s : list Z) : option Z :=
  match s with
  | [] => if after_digit then Some acc else None
  | c :: s' =>
    if c =? 95 then
      if after_digit then int_digits acc false s' else None
    else match digit_value c with
         | Some d => int_digits (10 * acc + d) true s'
         | None => None
         end
  end.

Definition py_int (s : list Z) : option Z :=
  match strip_by int_space s with
  | [] => None
  | c :: s' =>
    if c =? 45 then Z.opp <$> int_digits 0 false s'
    else if c =? 43 then int_digits 0 false s'
    else int_digits 0 false (c :: s')
  end.

(** ** Number formatting *)

Definition digit_char (d : Z) : Z := if d <? 10 then 48 + d else 55 + d.

(** Digits of [n >= 0] in [base], most significant first. *)
Fixpoint digits_of (fuel : nat) (base n : Z) (acc : list Z) : list Z :=
  match fuel with
  | O => acc
  | S fuel' =>
    let acc' := digit_char (n mod base) :: acc in
    if n <? base then acc' else digits_of fuel' base (n / base) acc'
  end.

Definition to_digits (base n : Z) : list Z :=
  digits_of (S (Z.to_nat (Z.log2 n))) base n [].

(** Sign-aware zero padding to [width] characters, the [0] flag of the
    format mini-language. *)
Definition zero_pad (width : nat) (n : Z) (ds : list Z) : list Z :=
  if n <? 0 then 45 :: replicate (width - 1 - length ds) 48 ++ ds
  else replicate (width - length ds) 48 ++ ds.

(** [f"{n:04X}"] *)
Definition format_04X (n : Z) : list Z := zero_pad 4 n (to_digits 16 (Z.abs n)).

(** [f"{n:03d}"] *)
Definition format_03d (n : Z) : list Z := zero_pad 3 n (to_digits 10 (Z.abs n)).

(** [str(n)], the [{}] of [str.format] *)
Definition format_d (n : Z) : list Z := zero_pad 0 n (to_digits 10 (Z.abs n)).

(** ** Lists *)

(** [list.sort(key=..., reverse=...)] and [sorted]: the sort is stable, also
    under [reverse=True].  Stable sorting determines the result, so it is
    embedded as insertion from the right, where an element goes in front of
    the first one that does not have to precede it. *)
Section py_sort.
Context {A : Type} (key : A → Z) (rev : bool).

Definition precedes (x y : A) : bool :=
  if rev then key y <? key x else key x <? key y.

Fixpoint sort_insert (x : A) (l : list A) : list A :=
  match l with
  | [] => [x]
  | y :: l' => if precedes y x then y :: sort_insert x l' else x :: l
  end.

Definition py_sort (l : list A) : list A := foldr sort_insert [] l.
End py_sort.

(** Bound of a slice, as [l[s:e]] resolves it against [len(l)]. *)
Definition slice_index (len i : Z) : Z :=
  if i <? 0 then Z.max (i + len) 0 else Z.min i len.

(** [l[s:e]] *)
Definition py_slice {A} (l : list A) (s e : Z) : list A :=
  let len := Z.of_nat (length l) in
  drop (Z.to_nat (slice_index len s)) (take (Z.to_nat (slice_index len e)) l).

(** [range(n)] *)
Definition py_range (n : Z) : list Z := seqZ 0 n.

(** [enumerate(l)] *)
Definition enumerate {A} (l : list A) : list (Z * A) :=
  zip (seqZ 0 (Z.of_nat (length l))) l.

(** [os.path.join(a, b)] on POSIX *)
Definition path_join (a b : list Z) : list Z :=
  if startswith 47 b then b
  else match last a with
       | None => b
       | Some c => if c =? 47 then a ++ b else a ++ [47] ++ b
       end.

(** ** The outside world *)

Record world := {
  (** [os.path.isfile] *)
  isfile : list Z → bool;
  (** the lines a text file yields when iterated over *)
  file_lines : list Z → list (list Z);
  (** [font['cmap'].tables]: the keys of every subtable *)
  cmap_tables : list Z → list (list Z);
  (** [unicodedata.category] *)
  category : Z → string;
  (** [subprocess.run(cmd, check=True, ...)]: [true] when the process could
      be started and exited with status 0, [false] when the call raised *)
  subprocess_run : list (list Z) → bool;
  (** [os.path.getsize]: [None] when it raises *)
  getsize : list Z → option Z
}.

(** ** [load_frequency_data] *)

(** [parts], for a line that has been stripped. *)
Definition line_parts (line : list Z) : list (list Z) :=
  if bool_decide (TAB ∈ line) then split TAB line else split COMMA line.

(** The body of the loop, for one line of the file. *)
Definition load_line (char_freq : gmap (list Z) Z) (line : list Z)
  : gmap (list Z) Z :=
  let line := strip line in
  if bool_decide (line = []) || startswith HASH line then char_freq
  else
    let parts := line_parts line in
    match parts with
    | char :: field :: _ =>
      match py_int field with
      | Some freq => <[char := freq]> char_freq
      | None => char_freq
      end
    | _ => char_freq
    end.

Definition load_frequency_data (w : world) (freq_file_path : list Z)
  : gmap (list Z) Z :=
  foldl load_line ∅ (file_lines w freq_file_path).

(** ** [get_chars_from_font] *)

(** [chr(code_point)]; [None] stands for the [ValueError]. *)
Definition chr (code_point : Z) : option Z :=
  if (0 <=? code_point) && (code_point <? 0x110000) then Some code_point
  else None.

Definition category_starts_with_C (cat : string) : bool :=
  match cat with
  | String c _ => bool_decide (c = "C"%char)
  | EmptyString => false
  end.

Definition add_code_point (w : world) (chars : gset Z) (code_point : Z)
  : gset Z :=
  match chr code_point with
  | Some char =>
    if (char =? 0) || category_starts_with_C (category w char) then chars
    else {[char]} ∪ chars
  | None => chars
  end.

Definition get_chars_from_font (w : world) (font_path : list Z) : list Z :=
  let chars :=
    foldl (λ chars table, foldl (add_code_point w) chars table)
          ∅ (cmap_tables w font_path) in
  py_sort id false (elements chars).

(** ** [create_unicode_range] *)

Definition format_run (start end_ : Z) : list Z :=
  if start =? end_ then lit "U+" ++ format_04X start
  else lit "U+" ++ format_04X start ++ lit "-" ++ format_04X end_.

(** The body of the loop; the state is [(ranges, start, end)]. *)
Definition range_step (st : list (list Z) * Z * Z) (code : Z)
  : list (list Z) * Z * Z :=
  let '(ranges, start, end_) := st in
  if code =? end_ + 1 then (ranges, start, code)
  else (ranges ++ [format_run start end_], code, code).

Definition create_unicode_range (codes : list Z) : list Z :=
  if bool_decide (codes = []) then lit ""
  else
    let codes := py_sort id false codes in
    match codes with
    | [] => []
    | start :: rest =>
      let '(ranges, start, end_) := foldl range_step ([], start, start) rest in
      join (lit ", ") (ranges ++ [format_run start end_])
    end.

(** ** [main] *)

Record args := {
  input : list Z;
  freq : list Z;
  output_dir : list Z;
  groups : Z;
  css : list Z
}.

(** Step 3: pair every character with its frequency and sort. *)
Definition rank_chars (freq_data : gmap (list Z) Z) (all_chars : list Z)
  : list (Z * Z) :=
  let char_freq_list := (λ char, (char, default 0 (freq_data !! [char]))) <$> all_chars in
  py_sort snd true char_freq_list.

(** Step 4: cut the ranked list into groups. *)
Definition make_groups (n_groups : Z) (char_freq_list : list (Z * Z))
  : list (list Z) :=
  let total_chars := Z.of_nat (length char_freq_list) in
  (λ i,
     let start := i * total_chars / n_groups in
     let end_ := (i + 1) * total_chars / n_groups in
     fst <$> py_slice char_freq_list start end_) <$> py_range n_groups.

Definition subset_filename (i : Z) : list Z :=
  lit "AlibabaPuHuiTi-subset-" ++ format_03d i ++ lit ".woff2".

Definition subset_cmd (a : args) (i : Z) (group : list Z) : list (list Z) :=
  [ lit "pyftsubset"; input a;
    lit "--text=" ++ group;
    lit "--output-file=" ++ path_join (output_dir a) (subset_filename i);
    lit "--flavor=woff2";
    lit "--with-zopfli";
    lit "--desubroutinize";
    lit "--hinting-tables=*" ].

Definition css_rule (a : args) (i : Z) (unicode_range : list Z) : list Z :=
  lit "@font-face {" ++ nl ++
  lit "  font-family: " ++ dquote ++ lit "Alibaba PuHuiTi 3.0" ++ dquote
    ++ lit ";" ++ nl ++
  lit "  font-style: normal;" ++ nl ++
  lit "  font-weight: 400;" ++ nl ++
  lit "  font-display: swap;" ++ nl ++
  lit "  src: url(" ++ dquote ++ path_join (output_dir a) (subset_filename i)
    ++ dquote ++ lit ") format(" ++ dquote ++ lit "woff2" ++ dquote
    ++ lit ");" ++ nl ++
  lit "  unicode-range: " ++ unicode_range ++ lit ";" ++ nl ++
  lit "}".

(** Step 5, the body of the loop for one [(i, group)]. *)
Definition emit_group (w : world) (a : args) (css_rules : list (list Z))
    (ig : Z * list Z) : list (list Z) :=
  let '(i, group) := ig in
  match group with
  | [] => css_rules
  | _ :: _ =>
    if subprocess_run w (subset_cmd a i group) then
      match getsize w (path_join (output_dir a) (subset_filename i)) with
      | Some file_size =>
        let codes := group in
        let unicode_range := create_unicode_range codes in
        css_rules ++ [css_rule a i unicode_range]
      | None => css_rules
      end
    else css_rules
  end.

Definition emit_groups (w : world) (a : args) (groups : list (list Z))
  : list (list Z) :=
  foldl (emit_group w a) [] (enumerate groups).

(** Step 6: the text written to the stylesheet. *)
Definition css_text (css_rules : list (list Z)) : list Z :=
  lit "/* 阿里巴巴普惠体 3.0 子集化字体 */" ++ nl ++
  lit "/* 生成于: 2025-09-04 */" ++ nl ++
  lit "/* 包含 " ++ format_d (Z.of_nat (length css_rules)) ++ lit " 个子集 */"
    ++ nl ++ nl ++
  join (nl ++ nl) css_rules.

(** How a run ends: [sys.exit(status)], or the end of [main] with the
    stylesheet written. *)
Inductive outcome :=
  | SysExit (status : Z)
  | Completed (css_rules : list (list Z)) (css_path : list Z)
      (css_content : list Z).

Definition main (w : world) (a : args) : outcome :=
  if negb (isfile w (input a)) then SysExit 1
  else if negb (isfile w (freq a)) then SysExit 1
  else
    let freq_data := load_frequency_data w (freq a) in
    let all_chars := get_chars_from_font w (input a) in
    let char_freq_list := rank_chars freq_data all_chars in
    let groups := make_groups (groups a) char_freq_list in
    let css_rules := emit_groups w a groups in
    Completed css_rules (css a) (css_text css_rules).

(** * Notions of the specification *)

(** [boundary(i) = floor(i * total / G)] *)
Definition boundary (total G i : Z) : Z := i * total / G.

(** The reading under which the larger groups come first: every group of
    size [floor(total / G) + 1] precedes every group of size
    [floor(total / G)]. *)
Definition larger_groups_first (G : Z) (char_freq_list : list (Z * Z)) : Prop :=
  ∀ (i j : nat) (gi gj : list Z),
    make_groups G char_freq_list !! i = Some gi →
    make_groups G char_freq_list !! j = Some gj →
    Z.of_nat (length gi) = Z.of_nat (length char_freq_list) / G + 1 →
    Z.of_nat (length gj) = Z.of_nat (length char_freq_list) / G →
    (i < j)%nat.


(** A run rejects its input when it ends in [sys.exit] with a status other
    than 0. *)
Definition rejected (o : outcome) : Prop :=
  ∃ status, status ≠ 0 ∧ o = SysExit status.

(** ** Sample inputs *)

(** A font with the characters a and b, and a frequency file with the one
    line [a<TAB>5]; every file exists and every subset is written. *)
Definition sample_world : world := {|
  isfile := λ _, true;
  file_lines := λ _, [lit "a" ++ [TAB] ++ lit "5" ++ nl];
  cmap_tables := λ _, [[97; 98]];
  category := λ _, "Ll"%string;
  subprocess_run := λ _, true;
  getsize := λ _, Some 1024
|}.

Definition sample_args (n_groups : Z) : args := {|
  input := lit "AlibabaPuHuiTi-3-55-Regular.ttf";
  freq := lit "freq.txt";
  output_dir := lit "subsets";
  groups := n_groups;
  css := lit "result.css"
|}.

(** [x] may stand in front of [y] in a list sorted by [key]. *)
Definition key_ordered {A} (key : A → Z) (rev : bool) (x y : A) : Prop :=
  if rev then key y ≤ key x else key x ≤ key y.

(** By key first, and by [R] among equal keys. *)
Definition key_then {A} (key : A → Z) (rev : bool) (R : A → A → Prop)
    (x y : A) : Prop :=
  (key_ordered key rev x y ∧ key x ≠ key y) ∨ (key x = key y ∧ R x y).

(** Order of two ranked pairs: higher frequency first, and among equal
    frequencies the smaller code point first. *)
Definition rank_before (p q : Z * Z) : Prop :=
  q.2 < p.2 ∨ (p.2 = q.2 ∧ p.1 < q.1).

(** The characters a font provides: those whose code point is a key of one
    of the subtables and which pass the filter of [get_chars_from_font]. *)
Definition font_char (w : world) (font_path : list Z) (c : Z) : Prop :=
  ∃ table code_point,
    table ∈ cmap_tables w font_path ∧ code_point ∈ table
    ∧ chr code_point = Some c ∧ c ≠ 0
    ∧ category_starts_with_C (category w c) = false.

(** ** Runs of consecutive code points *)

(** The merge as the specification words it: the current run is
    [start .. end_]; a code equal to [end_ + 1] extends it, any other code
    closes it and starts a new run. *)
Fixpoint runs_from (start end_ : Z) (rest : list Z) : list (Z * Z) :=
  match rest with
  | [] => [(start, end_)]
  | c :: rest' =>
    if c =? end_ + 1 then runs_from start c rest'
    else (start, end_) :: runs_from c c rest'
  end.

Definition merge_runs (sorted_codes : list Z) : list (Z * Z) :=
  match sorted_codes with
  | [] => []
  | c :: rest => runs_from c c rest
  end.

(** The code points of the run [start .. end_], both ends included. *)
Definition run_codes (r : Z * Z) : list Z := seqZ r.1 (r.2 - r.1 + 1).

(** One of [0-9A-F]. *)
Definition upper_hex_digit (c : Z) : Prop := 48 ≤ c ≤ 57 ∨ 65 ≤ c ≤ 70.

(** The number a string of hexadecimal digits denotes. *)
Definition hex_value (ds : list Z) : Z :=
  foldl (λ acc c, 16 * acc + (if c <=? 57 then c - 48 else c - 55)) 0 ds.

(** The sample world with another frequency file. *)
Definition world_with_lines (lines : list (list Z)) : world := {|
  isfile := isfile sample_world;
  file_lines := λ _, lines;
  cmap_tables := cmap_tables sample_world;
  category := category sample_world;
  subprocess_run := subprocess_run sample_world;
  getsize := getsize sample_world
|}.

(** ** The lines of a frequency file *)

(** [line] is a data line that gives the entry [char -> freq_value]: it is
    neither blank nor a comment, it has at least two fields, [char] is the
    first and [freq_value] is the integer the second one parses to. *)
Definition data_line (line char : list Z) (freq_value : Z) : Prop :=
  strip line ≠ []
  ∧ startswith HASH (strip line) = false
  ∧ ∃ field rest,
      line_parts (strip line) = char :: field :: rest
      ∧ py_int field = Some freq_value.

(** [s.split(sep, 1)]: one split, at the first separator. *)
Fixpoint split_first (sep : Z) (s : list Z) : list (list Z) :=
  match s with
  | [] => [[]]
  | c :: s' =>
    if c =? sep then [[]; s']
    else match split_first sep s' with
         | f :: fs => (c :: f) :: fs
         | [] => [[c]]
         end
  end.

(** The loop body as the specification words it: a line with a tab is cut
    in two at its first tab. *)
Definition load_line_first_tab (char_freq : gmap (list Z) Z) (line : list Z)
  : gmap (list Z) Z :=
  let line := strip line in
  if bool_decide (line = []) || startswith HASH line then char_freq
  else
    let parts :=
      if bool_decide (TAB ∈ line) then split_first TAB line
      else split COMMA line in
    match parts with
    | char :: field :: _ =>
      match py_int field with
      | Some freq => <[char := freq]> char_freq
      | None => char_freq
      end
    | _ => char_freq
    end.

(** Every entry of the table has a single character as its key and a
    non-negative frequency. *)
Definition well_formed_table (char_freq : gmap (list Z) Z) : Prop :=
  ∀ char freq_value,
    char_freq !! char = Some freq_value →
    length char = 1%nat ∧ 0 ≤ freq_value.

(** A line that consists of whitespace, a separator and a number leaves the
    table as it is. *)
Definition whitespace_line_ignored (line : list Z) : Prop :=
  ∀ char_freq : gmap (list Z) Z, load_line char_freq line = char_freq.

(** ** The subset emitter *)

(** The subset of group [i] was produced: the [pyftsubset] call returned
    normally and the size of the file it wrote could be read. *)
Definition subset_produced (w : world) (a : args) (ig : Z * list Z) : bool :=
  subprocess_run w (subset_cmd a ig.1 ig.2)
  && bool_decide (is_Some (getsize w (path_join (output_dir a)
                                                (subset_filename ig.1)))).

(** The style rule of group [i]. *)
Definition rule_of (a : args) (ig : Z * list Z) : list Z :=
  css_rule a ig.1 (create_unicode_range ig.2).

(** A world in which the subset of every group but number 1 is produced. *)
Definition world_failing_second : world := {|
  isfile := isfile sample_world;
  file_lines := file_lines sample_world;
  cmap_tables := λ _, [[97; 98; 99]];
  category := category sample_world;
  subprocess_run := λ cmd,
    negb (bool_decide (cmd !! 3%nat
                       = Some (lit "--output-file=subsets/AlibabaPuHuiTi-subset-001.woff2")));
  getsize := getsize sample_world
|}.

(** * Further notions *)

(** The entry one line of the frequency file contributes, if any. *)
Definition line_entry (line : list Z) : option (list Z * Z) :=
  if bool_decide (strip line = []) || startswith HASH (strip line) then None
  else match line_parts (strip line) with
       | char :: field :: _ =>
         (λ freq_value, (char, freq_value)) <$> py_int field
       | _ => None
       end.

(** The sample world with another font. *)
Definition world_with_cmap (tables : list (list Z)) : world := {|
  isfile := isfile sample_world;
  file_lines := file_lines sample_world;
  cmap_tables := λ _, tables;
  category := category sample_world;
  subprocess_run := subprocess_run sample_world;
  getsize := getsize sample_world
|}.

(** The number a string of decimal digits denotes. *)
Definition dec_value (ds : list Z) : Z :=
  foldl (λ acc c, 10 * acc + (c - 48)) 0 ds.

(** * [test.py]: writing a frequency file for a font

    The script gives every character of the font the frequency 1.  It
    returns the text it writes to [freq.txt]; [None] stands for the
    [UnicodeEncodeError] that writing a surrogate raises. *)

Definition test_font_path : list Z := lit "AlibabaPuHuiTi-3-55-Regular.ttf".

Definition test_add_code_point (chars : gset Z) (code_point : Z) : gset Z :=
  match chr code_point with
  | Some char => {[char]} ∪ chars
  | None => chars
  end.

Definition test_chars (w : world) : list Z :=
  let chars :=
    foldl (λ chars table, foldl test_add_code_point chars table)
          ∅ (cmap_tables w test_font_path) in
  py_sort id false (elements chars).

(** A code point that UTF-8 cannot encode. *)
Definition is_surrogate (c : Z) : bool := (0xD800 <=? c) && (c <=? 0xDFFF).

(** [f"{char}\t1\n"] *)
Definition test_line (char : Z) : list Z := [char] ++ [TAB] ++ lit "1" ++ nl.

Definition test_script (w : world) : option (list Z) :=
  if existsb is_surrogate (test_chars w) then None
  else Some (concat (test_line <$> test_chars w)).

(** The lines a text file with the content [text] yields when it is read
    in text mode: a line ends at a line feed, at a carriage return or at a
    carriage return followed by a line feed, each of which is handed over
    as one line feed. *)
Fixpoint read_lines_from (cur text : list Z) : list (list Z) :=
  match text with
  | [] => match cur with [] => [] | _ :: _ => [cur] end
  | c :: text' =>
    if c =? 10 then (cur ++ [10]) :: read_lines_from [] text'
    else if c =? 13 then
      match text' with
      | c' :: text'' =>
        if c' =? 10 then (cur ++ [10]) :: read_lines_from [] text''
        else (cur ++ [10]) :: read_lines_from [] text'
      | [] => [cur ++ [10]]
      end
    else read_lines_from (cur ++ [c]) text'
  end.

Definition read_lines (text : list Z) : list (list Z) := read_lines_from [] text.

(** A character that a frequency file cannot name: whitespace, or the
    comment sign. *)
Definition unnameable (c : Z) : bool := isspace c || (c =? HASH).

(** A world for [test.py] and [main] together: the font maps the given
    code points, and the frequency file is the one [test.py] writes. *)
Definition world_after_test (tables : list (list Z)) : world := {|
  isfile := isfile sample_world;
  file_lines := λ _,
    match test_script (world_with_cmap tables) with
    | Some text => read_lines text
    | None => []
    end;
  cmap_tables := λ _, tables;
  category := λ c, if c <? 32 then "Cc"%string else "Ll"%string;
  subprocess_run := subprocess_run sample_world;
  getsize := getsize sample_world
|}.
(** * Properties *)

(** ** The embedded builtins on sample values *)

Example py_int_examples :
  py_int (lit " 5 ") = Some 5 ∧ py_int (lit "-5") = Some (-5)
  ∧ py_int (lit "+5") = Some 5 ∧ py_int (lit "007") = Some 7
  ∧ py_int (lit "5_0") = Some 50 ∧ py_int (lit "5__0") = None
  ∧ py_int (lit "_5") = None ∧ py_int (lit "5_") = None
  ∧ py_int (lit "- 5") = None ∧ py_int (lit "") = None
  ∧ py_int (lit "5.0") = None ∧ py_int (lit "5" ++ [TAB] ++ lit "9") = None
  ∧ py_int (0x1C :: lit "5") = None ∧ py_int (0x3000 :: lit "5") = Some 5.
Proof. repeat split; reflexivity. Qed.

Example format_examples :
  format_04X 65 = lit "0041" ∧ format_04X 0x10FFFF = lit "10FFFF"
  ∧ format_04X (-1) = lit "-001" ∧ format_03d 7 = lit "007"
  ∧ format_03d 1234 = lit "1234" ∧ format_d 12 = lit "12"
  ∧ format_d 0 = lit "0".
Proof. repeat split; reflexivity. Qed.

Example split_examples :
  split TAB (lit "a" ++ [TAB] ++ lit "5" ++ [TAB] ++ lit "9")
    = [lit "a"; lit "5"; lit "9"]
  ∧ split COMMA (lit "") = [lit ""]
  ∧ split COMMA (lit ",5") = [lit ""; lit "5"]
  ∧ split COMMA (lit "a,,") = [lit "a"; lit ""; lit ""]
  ∧ strip ([TAB] ++ lit " a b " ++ nl) = lit "a b".
Proof. repeat split; reflexivity. Qed.

Example py_slice_examples :
  py_slice [0; 1; 2; 3; 4] 1 3 = [1; 2]
  ∧ py_slice [0; 1; 2; 3; 4] (-2) 3 = []
  ∧ py_slice [0; 1; 2; 3; 4] 7 9 = []
  ∧ py_slice [0; 1; 2; 3; 4] (-9) 2 = [0; 1]
  ∧ py_slice [0; 1; 2; 3; 4] 2 (-1) = [2; 3]
  ∧ py_range 3 = [0; 1; 2] ∧ py_range (-1) = [].
Proof. repeat split; reflexivity. Qed.

Example path_join_examples :
  path_join (lit "subsets") (lit "x") = lit "subsets/x"
  ∧ path_join (lit "") (lit "x") = lit "x"
  ∧ path_join (lit "a/") (lit "x") = lit "a/x".
Proof. repeat split; reflexivity. Qed.

Example py_sort_examples :
  py_sort id false [3; 1; 2; 1] = [1; 1; 2; 3]
  ∧ py_sort snd true [(1, 0); (2, 5); (3, 0); (4, 5)]
    = [(2, 5); (4, 5); (1, 0); (3, 0)].
Proof. repeat split; reflexivity. Qed.

(** ** Slices and boundaries *)

Lemma boundary_0 total G : boundary total G 0 = 0.
Proof. unfold boundary. by rewrite Z.mul_0_l, Zdiv_0_l. Qed.

Lemma boundary_last total G : 1 ≤ G → boundary total G G = total.
Proof. intros. unfold boundary. rewrite Z.mul_comm. apply Z_div_mult. lia. Qed.

Lemma boundary_mono total G i j :
  1 ≤ G → 0 ≤ total → i ≤ j → boundary total G i ≤ boundary total G j.
Proof. intros. unfold boundary. apply Z.div_le_mono; nia. Qed.

Lemma boundary_range total G i :
  1 ≤ G → 0 ≤ total → 0 ≤ i ≤ G → 0 ≤ boundary total G i ≤ total.
Proof.
  intros HG Ht [Hi0 HiG]. split.
  - rewrite <- (boundary_0 total G). by apply boundary_mono.
  - rewrite <- (boundary_last total G) at 2 by done. by apply boundary_mono.
Qed.

(** The width of a slice is the quotient or the quotient plus one, and the
    second exactly when the remainders carry. *)
Lemma boundary_step total G i :
  1 ≤ G → 0 ≤ total →
  boundary total G (i + 1) - boundary total G i
  = total / G + (if G <=? (i * total) `mod` G + total `mod` G then 1 else 0).
Proof.
  intros HG Ht. unfold boundary.
  pose proof (Z.div_mod (i * total) G ltac:(lia)) as E1.
  pose proof (Z.div_mod total G ltac:(lia)) as E2.
  pose proof (Z.mod_pos_bound (i * total) G ltac:(lia)) as B1.
  pose proof (Z.mod_pos_bound total G ltac:(lia)) as B2.
  set (a := i * total / G) in *. set (r1 := (i * total) `mod` G) in *.
  set (q := total / G) in *. set (r := total `mod` G) in *.
  replace ((i + 1) * total) with (i * total + total) by lia.
  destruct (Z.leb_spec G (r1 + r)).
  - assert ((i * total + total) / G = a + q + 1) as ->; [|lia].
    symmetry. apply (Z.div_unique_pos _ _ _ (r1 + r - G)); lia.
  - assert ((i * total + total) / G = a + q) as ->; [|lia].
    symmetry. apply (Z.div_unique_pos _ _ _ (r1 + r)); lia.
Qed.

Lemma py_slice_inside {A} (l : list A) s e :
  0 ≤ s → 0 ≤ e ≤ Z.of_nat (length l) →
  py_slice l s e = drop (Z.to_nat s) (take (Z.to_nat e) l).
Proof.
  intros Hs He. unfold py_slice, slice_index.
  destruct (Z.ltb_spec s 0), (Z.ltb_spec e 0); try lia.
  rewrite (Z.min_l e) by lia.
  destruct (Z.le_gt_cases s (Z.of_nat (length l))).
  - by rewrite Z.min_l by lia.
  - rewrite Z.min_r by lia. rewrite Nat2Z.id.
    rewrite !drop_ge; [done| |]; rewrite length_take; lia.
Qed.

(** ** Step 4: the groups *)

Section groups.
Context (char_freq_list : list (Z * Z)) (G : Z).
Let total := Z.of_nat (length char_freq_list).

Lemma make_groups_length : length (make_groups G char_freq_list) = Z.to_nat G.
Proof. unfold make_groups, py_range. by rewrite length_fmap, length_seqZ. Qed.

Lemma make_groups_lookup (i : nat) :
  Z.of_nat i < G →
  make_groups G char_freq_list !! i
  = Some (drop (Z.to_nat (boundary total G (Z.of_nat i)))
               (take (Z.to_nat (boundary total G (Z.of_nat i + 1)))
                     char_freq_list.*1)).
Proof.
  intros Hi. unfold make_groups, py_range.
  rewrite list_lookup_fmap, lookup_seqZ_lt by done. simpl.
  rewrite Z.add_0_l. f_equal.
  pose proof (boundary_range total G (Z.of_nat i) ltac:(lia) ltac:(lia) ltac:(lia)).
  pose proof (boundary_range total G (Z.of_nat i + 1) ltac:(lia) ltac:(lia) ltac:(lia)).
  fold total. fold (boundary total G (Z.of_nat i)).
  fold (boundary total G (Z.of_nat i + 1)).
  rewrite py_slice_inside by (fold total; lia).
  by rewrite fmap_drop, fmap_take.
Qed.

Lemma make_groups_lookup_length (i : nat) group :
  make_groups G char_freq_list !! i = Some group →
  Z.of_nat (length group)
  = boundary total G (Z.of_nat i + 1) - boundary total G (Z.of_nat i).
Proof.
  intros Hg. assert (Z.of_nat i < G) as Hi.
  { apply lookup_lt_Some in Hg. rewrite make_groups_length in Hg. lia. }
  rewrite make_groups_lookup in Hg by done. injection Hg as <-.
  pose proof (boundary_range total G (Z.of_nat i) ltac:(lia) ltac:(lia) ltac:(lia)).
  pose proof (boundary_range total G (Z.of_nat i + 1) ltac:(lia) ltac:(lia) ltac:(lia)).
  pose proof (boundary_mono total G (Z.of_nat i) (Z.of_nat i + 1)
                ltac:(lia) ltac:(lia) ltac:(lia)).
  rewrite length_drop, length_take, length_fmap. fold total. lia.
Qed.

(** The first [n] groups make up the list up to the [n]-th boundary. *)
Lemma make_groups_prefix (n : nat) :
  Z.of_nat n ≤ G →
  concat (take n (make_groups G char_freq_list))
  = take (Z.to_nat (boundary total G (Z.of_nat n))) char_freq_list.*1.
Proof.
  induction n as [|n IH]; intros Hn.
  - by rewrite boundary_0.
  - rewrite (take_S_r _ _ _ (make_groups_lookup n ltac:(lia))).
    rewrite concat_app, IH by lia. simpl. rewrite app_nil_r.
    pose proof (boundary_range total G (Z.of_nat n) ltac:(lia) ltac:(lia) ltac:(lia)).
    pose proof (boundary_mono total G (Z.of_nat n) (Z.of_nat n + 1)
                  ltac:(lia) ltac:(lia) ltac:(lia)).
    replace (Z.of_nat (S n)) with (Z.of_nat n + 1) by lia.
    set (b := boundary total G (Z.of_nat n)) in *.
    set (b' := boundary total G (Z.of_nat n + 1)) in *.
    rewrite <- (take_drop (Z.to_nat b) (take (Z.to_nat b') _)) at 2.
    rewrite take_take. by replace (Z.to_nat b `min` Z.to_nat b')%nat with (Z.to_nat b) by lia.
Qed.

Lemma make_groups_concat :
  1 ≤ G → concat (make_groups G char_freq_list) = char_freq_list.*1.
Proof.
  intros HG.
  rewrite <- (take_ge (make_groups G char_freq_list) (Z.to_nat G))
    by (rewrite make_groups_length; lia).
  rewrite make_groups_prefix by lia.
  rewrite Z2Nat.id, boundary_last by lia.
  apply take_ge. rewrite length_fmap. subst total. lia.
Qed.
End groups.

Lemma make_groups_size (char_freq_list : list (Z * Z)) (G : Z) group :
  1 ≤ G →
  group ∈ make_groups G char_freq_list →
  Z.of_nat (length char_freq_list) / G ≤ Z.of_nat (length group)
    ≤ Z.of_nat (length char_freq_list) / G + 1
  ∧ Z.abs (G * Z.of_nat (length group) - Z.of_nat (length char_freq_list)) < G.
Proof.
  intros HG [i Hg]%list_elem_of_lookup.
  rewrite (make_groups_lookup_length _ _ _ _ Hg).
  rewrite boundary_step by lia.
  set (total := Z.of_nat (length char_freq_list)).
  pose proof (Z.div_mod total G ltac:(lia)).
  pose proof (Z.mod_pos_bound total G ltac:(lia)).
  pose proof (Z.mod_pos_bound (Z.of_nat i * total) G ltac:(lia)).
  clearbody total.
  destruct (Z.leb_spec G ((Z.of_nat i * total) `mod` G + total `mod` G)).
  all: lia.
Qed.

Lemma make_groups_two_sizes (char_freq_list : list (Z * Z)) (G : Z) :
  1 ≤ G →
  Forall (λ g, Z.of_nat (length g) = Z.of_nat (length char_freq_list) / G
               ∨ Z.of_nat (length g) = Z.of_nat (length char_freq_list) / G + 1)
         (make_groups G char_freq_list).
Proof.
  intros HG. apply Forall_forall. intros g Hg.
  pose proof (make_groups_size _ _ _ HG Hg). lia.
Qed.

(** C1.  For a group count [G >= 1] the partitioner returns exactly [G]
    groups; group [i] holds the characters of the ranked list at the indices
    from [boundary i] up to, not including, [boundary (i+1)], where
    [boundary i = floor(i * total / G)]; the groups concatenated in order
    are the characters of the whole ranked list, each once; and the size of
    every group is [floor(total / G)] or one more, so that it differs from
    the exact quotient [total / G] by less than one. *)
Theorem make_groups_partition (char_freq_list : list (Z * Z)) (G : Z) :
  1 ≤ G →
  length (make_groups G char_freq_list) = Z.to_nat G
  ∧ (∀ i : nat, Z.of_nat i < G →
      ∃ group,
        make_groups G char_freq_list !! i = Some group
        ∧ Z.of_nat (length group)
          = boundary (Z.of_nat (length char_freq_list)) G (Z.of_nat i + 1)
            - boundary (Z.of_nat (length char_freq_list)) G (Z.of_nat i)
        ∧ ∀ j : nat, (j < length group)%nat →
            group !! j
            = char_freq_list.*1 !!
                (Z.to_nat (boundary (Z.of_nat (length char_freq_list)) G
                                    (Z.of_nat i)) + j)%nat)
  ∧ concat (make_groups G char_freq_list) = char_freq_list.*1
  ∧ (∀ group, group ∈ make_groups G char_freq_list →
      Z.of_nat (length char_freq_list) / G ≤ Z.of_nat (length group)
        ≤ Z.of_nat (length char_freq_list) / G + 1
      ∧ Z.abs (G * Z.of_nat (length group) - Z.of_nat (length char_freq_list))
        < G).
Proof.
  intros HG. split_and!.
  - apply make_groups_length.
  - intros i Hi. eexists. split; [by apply make_groups_lookup|].
    split; [by apply make_groups_lookup_length, make_groups_lookup|].
    intros j Hj. rewrite lookup_drop. apply lookup_take_lt.
    rewrite length_drop, length_take, length_fmap in Hj. lia.
  - by apply make_groups_concat.
  - intros group Hg. by apply make_groups_size.
Qed.

(** The claim at a list of five characters cut into three groups. *)
Lemma make_groups_partition_witness :
  let l := [(97, 9); (98, 7); (99, 5); (100, 0); (101, 0)] in
  make_groups 3 l = [[97]; [98; 99]; [100; 101]]
  ∧ concat (make_groups 3 l) = l.*1.
Proof.
  split; [reflexivity|].
  exact (proj1 (proj2 (proj2 (make_groups_partition
    [(97, 9); (98, 7); (99, 5); (100, 0); (101, 0)] 3 ltac:(lia))))).
Defined.

(** *** Where the remainder goes *)

Lemma concat_length_two_sizes (q : Z) (gs : list (list Z)) :
  Forall (λ g, Z.of_nat (length g) = q ∨ Z.of_nat (length g) = q + 1) gs →
  Z.of_nat (length (concat gs))
  = q * Z.of_nat (length gs)
    + Z.of_nat (length (filter (λ g, Z.of_nat (length g) = q + 1) gs)).
Proof.
  induction 1 as [|g gs Hg _ IH]; [simpl; lia|].
  rewrite filter_cons. simpl. rewrite length_app.
  case_decide; simpl; lia.
Qed.

(** C7, as the code has it.  When [G] does not divide the number of
    characters, the groups of the larger size are not the earlier ones:
    group [i] has size [floor(total / G) + 1] exactly when the remainders of
    [i * total] and of [total] modulo [G] add up to [G] or more, and
    [floor(total / G)] otherwise; exactly [total mod G] groups have the
    larger size; the first group has the smaller size and the last group the
    larger one. *)
Theorem make_groups_remainder (char_freq_list : list (Z * Z)) (G : Z) :
  1 ≤ G →
  Z.of_nat (length char_freq_list) `mod` G ≠ 0 →
  (∀ (i : nat) group,
      make_groups G char_freq_list !! i = Some group →
      Z.of_nat (length group)
      = Z.of_nat (length char_freq_list) / G
        + (if G <=? (Z.of_nat i * Z.of_nat (length char_freq_list)) `mod` G
                    + Z.of_nat (length char_freq_list) `mod` G
           then 1 else 0))
  ∧ Z.of_nat (length (filter
        (λ group, Z.of_nat (length group)
                  = Z.of_nat (length char_freq_list) / G + 1)
        (make_groups G char_freq_list)))
    = Z.of_nat (length char_freq_list) `mod` G
  ∧ (∃ first, make_groups G char_freq_list !! 0%nat = Some first
        ∧ Z.of_nat (length first) = Z.of_nat (length char_freq_list) / G)
  ∧ (∃ final, make_groups G char_freq_list !! Z.to_nat (G - 1) = Some final
        ∧ Z.of_nat (length final) = Z.of_nat (length char_freq_list) / G + 1).
Proof.
  intros HG Hr.
  assert (∀ (i : nat) group,
      make_groups G char_freq_list !! i = Some group →
      Z.of_nat (length group)
      = Z.of_nat (length char_freq_list) / G
        + (if G <=? (Z.of_nat i * Z.of_nat (length char_freq_list)) `mod` G
                    + Z.of_nat (length char_freq_list) `mod` G
           then 1 else 0)) as Hsize.
  { intros i group Hg. rewrite (make_groups_lookup_length _ _ _ _ Hg).
    apply boundary_step; lia. }
  pose proof (Z.mod_pos_bound (Z.of_nat (length char_freq_list)) G ltac:(lia)) as Hb.
  split_and!; [done| | |].
  - pose proof (concat_length_two_sizes _ _ (make_groups_two_sizes char_freq_list G HG)) as Hc.
    rewrite make_groups_concat, length_fmap, make_groups_length in Hc by done.
    pose proof (Z.div_mod (Z.of_nat (length char_freq_list)) G ltac:(lia)).
    lia.
  - destruct (make_groups G char_freq_list !! 0%nat) as [g|] eqn:Hg.
    + exists g. split; [done|]. rewrite (Hsize _ _ Hg).
      rewrite Z.mul_0_l, Zmod_0_l.
      destruct (Z.leb_spec G (0 + Z.of_nat (length char_freq_list) `mod` G)); lia.
    + apply lookup_ge_None in Hg. rewrite make_groups_length in Hg. lia.
  - destruct (make_groups G char_freq_list !! Z.to_nat (G - 1)) as [g|] eqn:Hg.
    + exists g. split; [done|]. rewrite (Hsize _ _ Hg).
      rewrite Z2Nat.id by lia.
      set (total := Z.of_nat (length char_freq_list)) in *.
      assert (((G - 1) * total) `mod` G = G - total `mod` G) as ->.
      { symmetry.
        apply (Z.mod_unique_pos _ _ (total - total / G - 1)); [lia|].
        pose proof (Z.div_mod total G ltac:(lia)). nia. }
      destruct (Z.leb_spec G (G - total `mod` G + total `mod` G)); lia.
    + apply lookup_ge_None in Hg. rewrite make_groups_length in Hg. lia.
Qed.

Lemma make_groups_remainder_witness :
  let l := [(97, 9); (98, 7); (99, 5); (100, 0); (101, 0)] in
  (length <$> make_groups 3 l) = [1; 2; 2]%nat
  ∧ Z.of_nat (length (filter (λ group, Z.of_nat (length group) = 5 / 3 + 1)
                             (make_groups 3 l))) = 5 `mod` 3.
Proof.
  split; [reflexivity|].
  exact (proj1 (proj2 (make_groups_remainder
    [(97, 9); (98, 7); (99, 5); (100, 0); (101, 0)] 3
    ltac:(lia) ltac:(vm_compute; discriminate)))).
Defined.

(** Three characters in two groups: the group of two comes last. *)
Lemma larger_groups_first_counterexample :
  1 ≤ 2
  ∧ Z.of_nat (length [(97, 3); (98, 2); (99, 1)]) `mod` 2 ≠ 0
  ∧ make_groups 2 [(97, 3); (98, 2); (99, 1)] = [[97]; [98; 99]]
  ∧ ¬ larger_groups_first 2 [(97, 3); (98, 2); (99, 1)].
Proof.
  split_and!; [lia|vm_compute; discriminate|reflexivity|].
  intros H. specialize (H 1%nat 0%nat [98; 99] [97]).
  assert (1 < 0)%nat; [|lia].
  apply H; reflexivity.
Qed.

(** *** Group counts below one, and the empty list *)

Lemma make_groups_nonpositive (G : Z) (char_freq_list : list (Z * Z)) :
  G ≤ 0 → make_groups G char_freq_list = [].
Proof. intros. unfold make_groups, py_range. by rewrite seqZ_nil. Qed.

Lemma make_groups_nil (G : Z) : make_groups G [] = replicate (Z.to_nat G) [].
Proof.
  apply list_eq. intros i. unfold make_groups, py_range.
  rewrite list_lookup_fmap.
  destruct (decide (Z.of_nat i < G)).
  - rewrite lookup_seqZ_lt, lookup_replicate_2 by lia. simpl.
    unfold py_slice. by rewrite take_nil, drop_nil.
  - rewrite lookup_seqZ_ge by lia. symmetry. apply lookup_replicate_None. lia.
Qed.

(** C8, as the code has it.  A group count [G <= 0] is not rejected: when
    both input files exist, the loop that cuts the groups runs no times and
    yields no group, no subset is produced, and the run ends normally with
    a stylesheet of zero rules.  With no characters and [G >= 1], the
    partitioner yields exactly [G] empty groups. *)
Theorem nonpositive_groups_not_rejected (w : world) (a : args) :
  (groups a ≤ 0 →
   (∀ char_freq_list, make_groups (groups a) char_freq_list = [])
   ∧ (isfile w (input a) = true → isfile w (freq a) = true →
      main w a = Completed [] (css a) (css_text [])
      ∧ ¬ rejected (main w a)))
  ∧ (1 ≤ groups a →
     make_groups (groups a) [] = replicate (Z.to_nat (groups a)) []
     ∧ length (make_groups (groups a) []) = Z.to_nat (groups a)
     ∧ Forall (λ group, group = []) (make_groups (groups a) [])).
Proof.
  split.
  - intros HG. split; [intros; by apply make_groups_nonpositive|].
    intros Hin Hfreq.
    assert (main w a = Completed [] (css a) (css_text [])) as Hmain.
    { unfold main. rewrite Hin, Hfreq. simpl.
      by rewrite make_groups_nonpositive. }
    split; [done|]. rewrite Hmain. intros (status & _ & [=]).
  - intros HG. rewrite make_groups_nil, length_replicate.
    split_and!; [done..|]. apply Forall_replicate. done.
Qed.

Lemma nonpositive_groups_not_rejected_witness :
  main sample_world (sample_args 0)
    = Completed [] (lit "result.css") (css_text [])
  ∧ make_groups 4 [] = [[]; []; []; []].
Proof.
  split.
  - apply (proj1 (nonpositive_groups_not_rejected sample_world (sample_args 0)));
      [simpl; lia|reflexivity|reflexivity].
  - apply (proj2 (nonpositive_groups_not_rejected sample_world (sample_args 4))).
    simpl; lia.
Defined.

(** With [--groups 0] and both files present the run is not rejected. *)
Lemma nonpositive_groups_rejected_counterexample :
  groups (sample_args 0) ≤ 0
  ∧ main sample_world (sample_args 0)
    = Completed [] (lit "result.css") (css_text [])
  ∧ ¬ rejected (main sample_world (sample_args 0)).
Proof.
  split_and!; [simpl; lia|reflexivity|].
  intros (status & _ & [=]).
Qed.

(** ** Sorting *)

Lemma StronglySorted_mono {A} (R1 R2 : A → A → Prop) (l : list A) :
  (∀ x y, R1 x y → R2 x y) → StronglySorted R1 l → StronglySorted R2 l.
Proof.
  intros HR. induction 1 as [|x l _ IH Hx]; constructor; [done|].
  eapply Forall_impl; [done|]. auto.
Qed.

Section py_sort_facts.
Context {A : Type} (key : A → Z) (rev : bool).

Lemma precedes_true x y :
  precedes key rev x y = true ↔ key_ordered key rev x y ∧ key x ≠ key y.
Proof. unfold precedes, key_ordered. destruct rev; rewrite Z.ltb_lt; lia. Qed.

Lemma precedes_false x y :
  precedes key rev x y = false ↔ key_ordered key rev y x.
Proof. unfold precedes, key_ordered. destruct rev; rewrite Z.ltb_ge; lia. Qed.

Lemma key_ordered_trans x y z :
  key_ordered key rev x y → key_ordered key rev y z → key_ordered key rev x z.
Proof. unfold key_ordered. destruct rev; lia. Qed.

Lemma sort_insert_Permutation x l : sort_insert key rev x l ≡ₚ x :: l.
Proof.
  induction l as [|y l IH]; simpl; [done|].
  destruct (precedes key rev y x); [|done].
  by rewrite IH, Permutation_swap.
Qed.

Lemma py_sort_Permutation l : py_sort key rev l ≡ₚ l.
Proof.
  induction l as [|x l IH]; simpl; [done|].
  by rewrite sort_insert_Permutation, IH.
Qed.

(** Stability, first form: the elements with any one key come out in the
    order they went in. *)
Lemma sort_insert_filter_key k x l :
  filter (λ y, key y = k) (sort_insert key rev x l)
  = filter (λ y, key y = k) (x :: l).
Proof.
  induction l as [|y l IH]; simpl; [done|].
  destruct (precedes key rev y x) eqn:Hp; [|done].
  apply precedes_true in Hp as [_ Hne].
  rewrite (filter_cons _ y), IH, !filter_cons.
  repeat case_decide; done || lia.
Qed.

Lemma py_sort_filter_key k l :
  filter (λ y, key y = k) (py_sort key rev l) = filter (λ y, key y = k) l.
Proof.
  induction l as [|x l IH]; simpl; [done|].
  by rewrite sort_insert_filter_key, !filter_cons, IH.
Qed.

(** Stability, second form: if the input is ordered by [R], the output is
    ordered by key first and by [R] among equal keys. *)
Local Abbreviation key_ordered := (key_ordered key rev).
Local Abbreviation key_then := (key_then key rev).

Lemma key_then_ordered R x y : key_then R x y → key_ordered x y.
Proof. unfold key_then, key_ordered. destruct rev; lia. Qed.

Lemma sort_insert_key_then R x l :
  Forall (R x) l →
  StronglySorted (key_then R) l →
  StronglySorted (key_then R) (sort_insert key rev x l).
Proof.
  intros HR Hl. induction Hl as [|y l Hl IH Hy]; simpl.
  { repeat constructor. }
  apply Forall_cons in HR as [HRy HR].
  destruct (precedes key rev y x) eqn:Hp.
  - constructor; [by apply IH|].
    rewrite sort_insert_Permutation. constructor; [|done].
    left. by apply precedes_true.
  - apply precedes_false in Hp.
    constructor; [by constructor|].
    assert (key_then R x y) as Hxy.
    { unfold key_then. destruct (decide (key x = key y)); auto. }
    constructor; [done|].
    rewrite Forall_forall in HR, Hy |- *. intros z Hz.
    specialize (HR z Hz). apply Hy, key_then_ordered in Hz.
    pose proof (key_ordered_trans _ _ _ Hp Hz).
    unfold key_then. destruct (decide (key x = key z)); auto.
Qed.

Lemma py_sort_key_then R l :
  StronglySorted R l → StronglySorted (key_then R) (py_sort key rev l).
Proof.
  induction 1 as [|x l Hl IH Hx]; simpl; [constructor|].
  apply sort_insert_key_then; [|done].
  by rewrite py_sort_Permutation.
Qed.

Lemma StronglySorted_True (l : list A) : StronglySorted (λ _ _, True) l.
Proof. induction l; constructor; [done|]. by apply Forall_true. Qed.

Lemma py_sort_sorted l : StronglySorted key_ordered (py_sort key rev l).
Proof.
  eapply StronglySorted_mono; [|apply (py_sort_key_then _ _ (StronglySorted_True l))].
  intros x y. apply key_then_ordered.
Qed.
End py_sort_facts.

(** ** [get_chars_from_font] *)

Lemma elem_of_add_code_point w chars code_point c :
  c ∈ add_code_point w chars code_point
  ↔ c ∈ chars
    ∨ (chr code_point = Some c ∧ c ≠ 0
       ∧ category_starts_with_C (category w c) = false).
Proof.
  unfold add_code_point. destruct (chr code_point) as [char|]; [|naive_solver].
  destruct (Z.eqb_spec char 0) as [->|Hne]; simpl; [naive_solver|].
  destruct (category_starts_with_C (category w char)) eqn:Hcat.
  - split; [auto|]. intros [?|(? & ? & ?)]; [done|]. simplify_eq. congruence.
  - rewrite elem_of_union, elem_of_singleton. naive_solver.
Qed.

Lemma elem_of_add_table w chars table c :
  c ∈ foldl (add_code_point w) chars table
  ↔ c ∈ chars
    ∨ ∃ code_point, code_point ∈ table ∧ chr code_point = Some c ∧ c ≠ 0
        ∧ category_starts_with_C (category w c) = false.
Proof.
  revert chars. induction table as [|cp table IH]; intros chars; simpl.
  - split; [auto|]. intros [?|(? & []%elem_of_nil & _)]. done.
  - rewrite IH, elem_of_add_code_point. setoid_rewrite elem_of_cons.
    naive_solver.
Qed.

Lemma elem_of_add_tables w chars tables c :
  c ∈ foldl (λ chars table, foldl (add_code_point w) chars table) chars tables
  ↔ c ∈ chars
    ∨ ∃ table code_point, table ∈ tables ∧ code_point ∈ table
        ∧ chr code_point = Some c ∧ c ≠ 0
        ∧ category_starts_with_C (category w c) = false.
Proof.
  revert chars. induction tables as [|table tables IH]; intros chars; simpl.
  - split; [auto|]. intros [?|(? & ? & []%elem_of_nil & _)]. done.
  - rewrite IH, elem_of_add_table. setoid_rewrite elem_of_cons.
    naive_solver.
Qed.

Lemma elem_of_get_chars_from_font w font_path c :
  c ∈ get_chars_from_font w font_path ↔ font_char w font_path c.
Proof.
  unfold get_chars_from_font, font_char.
  rewrite py_sort_Permutation, elem_of_elements, elem_of_add_tables.
  rewrite elem_of_empty. naive_solver.
Qed.

Lemma StronglySorted_le_NoDup_lt (l : list Z) :
  StronglySorted Z.le l → NoDup l → StronglySorted Z.lt l.
Proof.
  induction 1 as [|x l _ IH Hx]; intros Hnd; [constructor|].
  apply NoDup_cons in Hnd as [Hx' Hnd].
  constructor; [by apply IH|].
  rewrite Forall_forall in Hx |- *. intros y Hy.
  specialize (Hx y Hy). assert (x ≠ y) by (intros ->; done). lia.
Qed.

Lemma category_starts_with_C_false cat rest :
  category_starts_with_C cat = false → cat ≠ String "C" rest.
Proof. intros H ->. by vm_compute in H. Qed.

(** C4.  The character set read from a font holds no null character and
    no character whose general category starts with C, holds no character
    twice, and is in ascending order of code point.  Its members are
    exactly the characters the font provides. *)
Theorem get_chars_from_font_spec (w : world) (font_path : list Z) :
  (0 ∉ get_chars_from_font w font_path)
  ∧ (∀ c rest, c ∈ get_chars_from_font w font_path →
       category w c ≠ String "C" rest)
  ∧ NoDup (get_chars_from_font w font_path)
  ∧ StronglySorted Z.lt (get_chars_from_font w font_path)
  ∧ (∀ c, c ∈ get_chars_from_font w font_path ↔ font_char w font_path c).
Proof.
  assert (NoDup (get_chars_from_font w font_path)) as Hnd.
  { unfold get_chars_from_font. rewrite py_sort_Permutation.
    apply NoDup_elements. }
  split_and!.
  - intros (? & ? & ? & ? & ? & ? & ?)%elem_of_get_chars_from_font. done.
  - intros c rest (? & ? & ? & ? & ? & ? & Hcat)%elem_of_get_chars_from_font.
    by apply category_starts_with_C_false.
  - done.
  - apply StronglySorted_le_NoDup_lt; [|done].
    apply (py_sort_sorted id false).
  - apply elem_of_get_chars_from_font.
Qed.

(** ** Step 3: ranking *)

Lemma rank_before_irrefl p q : rank_before p q → rank_before q p → p = q.
Proof. unfold rank_before. lia. Qed.

Lemma StronglySorted_lookup_lt {A} (R : A → A → Prop) (l : list A) i j x y :
  StronglySorted R l → (i < j)%nat → l !! i = Some x → l !! j = Some y → R x y.
Proof.
  intros Hl. revert i j. induction Hl as [|z l _ IH Hz]; intros i j Hij Hi Hj.
  { by rewrite lookup_nil in Hi. }
  destruct j as [|j]; [lia|]. simpl in Hj.
  destruct i as [|i]; simpl in Hi.
  - simplify_eq. rewrite Forall_forall in Hz. eapply Hz, list_elem_of_lookup_2, Hj.
  - apply (IH i j); [lia|done..].
Qed.

(** C9.  Ranking returns the (character, frequency) pairs of the character
    set, each with the frequency of the table or 0, sorted by descending
    frequency; the sort is stable, so the pairs of any one frequency keep
    the order they had, and with the character set in ascending code-point
    order the characters of equal frequency stay in ascending code-point
    order.  The ranked list, and with it every group, is determined by the
    inputs: any list of the same pairs in that order is the ranked list and
    is cut into the same groups. *)
Theorem rank_chars_stable (freq_data : gmap (list Z) Z) (all_chars : list Z) :
  StronglySorted Z.lt all_chars →
  rank_chars freq_data all_chars
    ≡ₚ (λ char, (char, default 0 (freq_data !! [char]))) <$> all_chars
  ∧ StronglySorted (λ p q, q.2 ≤ p.2) (rank_chars freq_data all_chars)
  ∧ (∀ k, filter (λ p, p.2 = k) (rank_chars freq_data all_chars)
          = filter (λ p, p.2 = k)
              ((λ char, (char, default 0 (freq_data !! [char]))) <$> all_chars))
  ∧ (∀ (i j : nat) p q,
        (i < j)%nat →
        rank_chars freq_data all_chars !! i = Some p →
        rank_chars freq_data all_chars !! j = Some q →
        p.2 = q.2 → p.1 < q.1)
  ∧ (∀ ranked G,
        ranked ≡ₚ (λ char, (char, default 0 (freq_data !! [char]))) <$> all_chars →
        StronglySorted rank_before ranked →
        ranked = rank_chars freq_data all_chars
        ∧ make_groups G ranked = make_groups G (rank_chars freq_data all_chars)).
Proof.
  intros Hsorted.
  set (pairs := (λ char, (char, default 0 (freq_data !! [char]))) <$> all_chars).
  assert (StronglySorted rank_before (rank_chars freq_data all_chars)) as Hrank.
  { unfold rank_chars. fold pairs.
    apply (StronglySorted_mono (key_then snd true (λ p q, p.1 < q.1))).
    { unfold key_then, key_ordered, rank_before. intros p q. lia. }
    apply py_sort_key_then. subst pairs.
    eapply StronglySorted_fmap; [|exact Hsorted]. by intros x y. }
  split_and!.
  - apply py_sort_Permutation.
  - eapply StronglySorted_mono; [|apply Hrank]. unfold rank_before. intros p q. lia.
  - intros k. apply (py_sort_filter_key snd true).
  - intros i j p q Hij Hp Hq Heq.
    pose proof (StronglySorted_lookup_lt _ _ _ _ _ _ Hrank Hij Hp Hq) as H.
    unfold rank_before in H. lia.
  - intros ranked G Hperm Hranked.
    assert (ranked = rank_chars freq_data all_chars) as ->; [|done].
    apply (StronglySorted_unique_strong rank_before); [|done..|].
    + intros. by apply rank_before_irrefl.
    + rewrite Hperm. symmetry. apply py_sort_Permutation.
Qed.

Lemma rank_chars_stable_witness :
  rank_chars {[ [98] := 7; [100] := 7; [97] := 2 ]} [97; 98; 99; 100]
  = [(98, 7); (100, 7); (97, 2); (99, 0)]
  ∧ StronglySorted (λ p q : Z * Z, q.2 ≤ p.2)
      (rank_chars {[ [98] := 7; [100] := 7; [97] := 2 ]} [97; 98; 99; 100]).
Proof.
  split; [by vm_compute|].
  apply (rank_chars_stable {[ [98] := 7; [100] := 7; [97] := 2 ]} [97; 98; 99; 100]).
  repeat (constructor; [|repeat (constructor; [lia|]); constructor]).
  constructor.
Defined.

(** ** Number formatting *)

Lemma digits_of_acc fuel base n acc :
  digits_of fuel base n acc = digits_of fuel base n [] ++ acc.
Proof.
  revert n acc. induction fuel as [|fuel IH]; intros n acc; simpl; [done|].
  destruct (n <? base); [done|].
  rewrite IH, (IH _ [_]). by rewrite <- app_assoc.
Qed.

Lemma digits_of_small fuel base n :
  n < base → digits_of (S fuel) base n [] = [digit_char (n `mod` base)].
Proof. intros Hn. simpl. by rewrite (proj2 (Z.ltb_lt _ _) Hn). Qed.

Lemma digits_of_large fuel base n :
  base ≤ n →
  digits_of (S fuel) base n []
  = digits_of fuel base (n / base) [] ++ [digit_char (n `mod` base)].
Proof.
  intros Hn. simpl. rewrite (proj2 (Z.ltb_ge _ _) Hn). apply digits_of_acc.
Qed.

Lemma hex_value_snoc ds c :
  hex_value (ds ++ [c]) = 16 * hex_value ds + (if c <=? 57 then c - 48 else c - 55).
Proof. unfold hex_value. by rewrite foldl_app. Qed.

Lemma hex_value_zeros (k : nat) ds :
  hex_value (replicate k 48 ++ ds) = hex_value ds.
Proof. induction k as [|k IH]; [done|]. exact IH. Qed.

Lemma digit_char_hex d :
  0 ≤ d < 16 →
  upper_hex_digit (digit_char d)
  ∧ (if digit_char d <=? 57 then digit_char d - 48 else digit_char d - 55) = d.
Proof.
  intros Hd. unfold upper_hex_digit, digit_char.
  destruct (Z.ltb_spec d 10).
  - rewrite (proj2 (Z.leb_le _ _)) by lia. lia.
  - rewrite (proj2 (Z.leb_gt _ _)) by lia. lia.
Qed.

Lemma pow2_fuel_half fuel n :
  0 ≤ n < 2 ^ Z.of_nat (S fuel) → 0 ≤ n / 16 < 2 ^ Z.of_nat fuel.
Proof.
  rewrite Nat2Z.inj_succ, Z.pow_succ_r by lia. intros Hn.
  split; [apply Z.div_pos; lia|].
  apply Z.div_lt_upper_bound; lia.
Qed.

Lemma hex_value_digits_of fuel n :
  0 ≤ n < 2 ^ Z.of_nat fuel → hex_value (digits_of fuel 16 n []) = n.
Proof.
  revert n. induction fuel as [|fuel IH]; intros n Hn.
  { simpl in *. unfold hex_value. simpl. lia. }
  pose proof (Z.mod_pos_bound n 16 ltac:(lia)) as Hmod.
  destruct (Z.lt_ge_cases n 16).
  - rewrite digits_of_small by done. unfold hex_value. simpl.
    rewrite (proj2 (digit_char_hex _ Hmod)), Z.mod_small; lia.
  - rewrite digits_of_large, hex_value_snoc by done.
    rewrite IH by by apply pow2_fuel_half.
    rewrite (proj2 (digit_char_hex _ Hmod)).
    pose proof (Z.div_mod n 16 ltac:(lia)). lia.
Qed.

Lemma hex_digits_of fuel n :
  0 ≤ n → Forall upper_hex_digit (digits_of fuel 16 n []).
Proof.
  revert n. induction fuel as [|fuel IH]; intros n Hn; [constructor|].
  pose proof (Z.mod_pos_bound n 16 ltac:(lia)) as Hmod.
  destruct (Z.lt_ge_cases n 16).
  - rewrite digits_of_small by done.
    apply Forall_singleton, (proj1 (digit_char_hex _ Hmod)).
  - rewrite digits_of_large by done. apply Forall_app. split.
    + apply IH. apply Z.div_pos; lia.
    + apply Forall_singleton, (proj1 (digit_char_hex _ Hmod)).
Qed.

Lemma digits_of_length_le fuel n (k : nat) :
  0 ≤ n < 16 ^ Z.of_nat (S k) → (length (digits_of fuel 16 n []) ≤ S k)%nat.
Proof.
  revert n k. induction fuel as [|fuel IH]; intros n k Hn; [simpl; lia|].
  destruct (Z.lt_ge_cases n 16).
  - rewrite digits_of_small by done. simpl. lia.
  - rewrite digits_of_large, length_app by done. simpl.
    destruct k as [|k]; [simpl in Hn; lia|].
    specialize (IH (n / 16) k). 
    rewrite (Nat2Z.inj_succ (S k)), Z.pow_succ_r in Hn by lia.
    assert (0 ≤ n / 16 < 16 ^ Z.of_nat (S k)); [|lia].
    split; [apply Z.div_pos; lia|]. apply Z.div_lt_upper_bound; lia.
Qed.

Lemma digits_of_length_ge fuel n (k : nat) :
  16 ^ Z.of_nat k ≤ n < 2 ^ Z.of_nat fuel →
  (S k ≤ length (digits_of fuel 16 n []))%nat.
Proof.
  revert n k. induction fuel as [|fuel IH]; intros n k Hn.
  { pose proof (Z.pow_pos_nonneg 16 (Z.of_nat k) ltac:(lia) ltac:(lia)).
    simpl in Hn. lia. }
  pose proof (Z.pow_pos_nonneg 16 (Z.of_nat k) ltac:(lia) ltac:(lia)).
  destruct (Z.lt_ge_cases n 16).
  - rewrite digits_of_small by done. simpl.
    destruct k as [|k]; [lia|].
    rewrite Nat2Z.inj_succ, Z.pow_succ_r in Hn by lia.
    pose proof (Z.pow_pos_nonneg 16 (Z.of_nat k) ltac:(lia) ltac:(lia)). lia.
  - rewrite digits_of_large, length_app by done. simpl.
    destruct k as [|k]; [lia|].
    specialize (IH (n / 16) k).
    assert (16 ^ Z.of_nat k ≤ n / 16 < 2 ^ Z.of_nat fuel); [|lia].
    split; [|apply pow2_fuel_half; lia].
    rewrite Nat2Z.inj_succ, Z.pow_succ_r in Hn by lia.
    apply Z.div_le_lower_bound; lia.
Qed.

Lemma digits_of_head fuel n :
  0 < n < 2 ^ Z.of_nat fuel →
  ∃ c, head (digits_of fuel 16 n []) = Some c ∧ c ≠ 48.
Proof.
  revert n. induction fuel as [|fuel IH]; intros n Hn; [simpl in Hn; lia|].
  destruct (Z.lt_ge_cases n 16).
  - rewrite digits_of_small by done. eexists. split; [done|].
    rewrite Z.mod_small by lia. unfold digit_char. destruct (n <? 10); lia.
  - rewrite digits_of_large by done.
    destruct (IH (n / 16)) as (c & Hc & Hne).
    { split; [|apply pow2_fuel_half; lia].
      apply Z.div_str_pos; lia. }
    exists c. split; [|done].
    destruct (digits_of fuel 16 (n / 16) []); [done|]. done.
Qed.

Lemma to_digits_fuel n :
  0 ≤ n → 0 ≤ n < 2 ^ Z.of_nat (S (Z.to_nat (Z.log2 n))).
Proof.
  intros Hn. split; [done|].
  rewrite Nat2Z.inj_succ, Z2Nat.id by apply Z.log2_nonneg.
  destruct (decide (n = 0)) as [->|]; [done|].
  apply Z.log2_spec. lia.
Qed.

(** [f"{n:04X}"] of a number [n >= 0]: hexadecimal digits [0-9A-F] that
    denote [n], four of them when [n] fits and otherwise as many as [n]
    needs, without a leading zero. *)
Lemma format_04X_spec n :
  0 ≤ n →
  hex_value (format_04X n) = n
  ∧ Forall upper_hex_digit (format_04X n)
  ∧ (4 ≤ length (format_04X n))%nat
  ∧ (n < 0x10000 → length (format_04X n) = 4%nat)
  ∧ (0x10000 ≤ n → ∃ c, head (format_04X n) = Some c ∧ c ≠ 48).
Proof.
  intros Hn. unfold format_04X, zero_pad, to_digits.
  rewrite Z.abs_eq by done. rewrite (proj2 (Z.ltb_ge _ _) Hn).
  pose proof (to_digits_fuel n Hn) as Hfuel.
  set (ds := digits_of _ 16 n []) in *.
  assert (hex_value ds = n) as Hval by by apply hex_value_digits_of.
  assert (Forall upper_hex_digit ds) as Hds by by apply hex_digits_of.
  split_and!.
  - by rewrite hex_value_zeros.
  - apply Forall_app. split; [|done].
    apply Forall_replicate. unfold upper_hex_digit. lia.
  - rewrite length_app, length_replicate. lia.
  - intros Hlt. rewrite length_app, length_replicate.
    pose proof (digits_of_length_le (S (Z.to_nat (Z.log2 n))) n 3 ltac:(simpl; lia)).
    fold ds in H. lia.
  - intros Hge.
    pose proof (digits_of_length_ge (S (Z.to_nat (Z.log2 n))) n 4 ltac:(simpl; lia)).
    fold ds in H.
    replace (4 - length ds)%nat with 0%nat by lia. simpl.
    apply digits_of_head. lia.
Qed.

(** ** [create_unicode_range] *)

(** The loop of the code closes the same runs as [runs_from]. *)
Lemma range_step_runs ranges start end_ rest :
  let st := foldl range_step (ranges, start, end_) rest in
  st.1.1 ++ [format_run st.1.2 st.2]
  = ranges ++ ((λ r, format_run r.1 r.2) <$> runs_from start end_ rest).
Proof.
  revert ranges start end_.
  induction rest as [|c rest IH]; intros ranges start end_; simpl; [done|].
  destruct (c =? end_ + 1).
  - apply IH.
  - rewrite IH. by rewrite <- app_assoc.
Qed.

Lemma create_unicode_range_runs codes :
  create_unicode_range codes
  = join (lit ", ")
      ((λ r, format_run r.1 r.2) <$> merge_runs (py_sort id false codes)).
Proof.
  unfold create_unicode_range. case_bool_decide as Hnil; [by subst|].
  destruct (py_sort id false codes) as [|start rest]; [done|]. simpl.
  pose proof (range_step_runs [] start start rest) as Hruns. simpl in Hruns.
  destruct (foldl range_step ([], start, start) rest) as [[ranges s] e].
  simpl in Hruns. by rewrite Hruns.
Qed.

Lemma runs_from_head start end_ rest :
  ∃ e tl, runs_from start end_ rest = (start, e) :: tl.
Proof.
  revert end_. induction rest as [|c rest IH]; intros end_; simpl; [eauto|].
  destruct (c =? end_ + 1); eauto.
Qed.

Lemma runs_from_cover start end_ rest :
  start ≤ end_ →
  concat (run_codes <$> runs_from start end_ rest)
  = seqZ start (end_ - start + 1) ++ rest.
Proof.
  revert start end_. induction rest as [|c rest IH]; intros start end_ Hle; simpl.
  { unfold run_codes. simpl. by rewrite app_nil_r. }
  destruct (Z.eqb_spec c (end_ + 1)) as [->|Hne].
  - rewrite IH by lia.
    replace (end_ + 1 - start + 1) with ((end_ - start + 1) + 1) by lia.
    rewrite seqZ_app by lia. rewrite <- app_assoc. do 2 f_equal.
    replace (start + (end_ - start + 1)) with (end_ + 1) by lia. done.
  - simpl. rewrite IH by lia. unfold run_codes at 1. simpl.
    by replace (c - c + 1) with 1 by lia.
Qed.

Lemma runs_from_ordered start end_ rest :
  start ≤ end_ → Forall (λ r, r.1 ≤ r.2) (runs_from start end_ rest).
Proof.
  revert start end_. induction rest as [|c rest IH]; intros start end_ Hle; simpl.
  { by repeat constructor. }
  destruct (Z.eqb_spec c (end_ + 1)) as [->|Hne].
  - apply IH. lia.
  - constructor; [done|]. apply IH. lia.
Qed.

(** No run can be extended by the run that follows it; in a sorted list the
    next run starts at the end of the run (a repeated code) or beyond the
    code after it. *)
Lemma runs_from_maximal start end_ rest :
  StronglySorted Z.le (end_ :: rest) →
  Sorted (λ r1 r2, r1.2 ≤ r2.1 ∧ r2.1 ≠ r1.2 + 1) (runs_from start end_ rest).
Proof.
  revert start end_. induction rest as [|c rest IH]; intros start end_ Hs; simpl.
  { by repeat constructor. }
  apply StronglySorted_cons in Hs as [Hle Hs].
  destruct (Z.eqb_spec c (end_ + 1)) as [->|Hne].
  - by apply IH.
  - constructor; [by apply IH|].
    destruct (runs_from_head c c rest) as (e & tl & ->).
    constructor. simpl. apply Forall_cons in Hle as [? _]. lia.
Qed.

(** C2.  The range builder sorts the codes in ascending order, merges the
    maximal runs of consecutive values of the sorted list, writes a run of
    one code as [U+XXXX] and a longer run as [U+XXXX-YYYY], in upper-case
    hexadecimal digits padded with zeros to four, and joins the runs with a
    comma and a space.  [65, 66, 67, 90] gives [U+0041-0043, U+005A], [5]
    gives [U+0005], and the empty list gives the empty string. *)
Theorem create_unicode_range_spec :
  (∀ codes,
      py_sort id false codes ≡ₚ codes
      ∧ StronglySorted Z.le (py_sort id false codes)
      ∧ create_unicode_range codes
        = join (lit ", ")
            ((λ r, if decide (r.1 = r.2) then lit "U+" ++ format_04X r.1
                   else lit "U+" ++ format_04X r.1 ++ lit "-" ++ format_04X r.2)
               <$> merge_runs (py_sort id false codes))
      ∧ concat (run_codes <$> merge_runs (py_sort id false codes))
        = py_sort id false codes
      ∧ Forall (λ r, r.1 ≤ r.2) (merge_runs (py_sort id false codes))
      ∧ Sorted (λ r1 r2, r1.2 ≤ r2.1 ∧ r2.1 ≠ r1.2 + 1)
          (merge_runs (py_sort id false codes)))
  ∧ (∀ n, 0 ≤ n →
      hex_value (format_04X n) = n
      ∧ Forall upper_hex_digit (format_04X n)
      ∧ (4 ≤ length (format_04X n))%nat
      ∧ (n < 0x10000 → length (format_04X n) = 4%nat)
      ∧ (0x10000 ≤ n → ∃ c, head (format_04X n) = Some c ∧ c ≠ 48))
  ∧ create_unicode_range [65; 66; 67; 90] = lit "U+0041-0043, U+005A"
  ∧ create_unicode_range [5] = lit "U+0005"
  ∧ create_unicode_range [] = lit "".
Proof.
  split_and!; [|apply format_04X_spec|reflexivity..].
  intros codes.
  pose proof (py_sort_sorted id false codes) as Hsorted.
  split_and!.
  - apply py_sort_Permutation.
  - done.
  - rewrite create_unicode_range_runs. f_equal. apply list_fmap_ext.
    intros _ [s e] _. unfold format_run. simpl.
    destruct (Z.eqb_spec s e); by case_decide.
  - destruct (py_sort id false codes) as [|c rest]; [done|]. simpl.
    rewrite runs_from_cover by lia. by replace (c - c + 1) with 1 by lia.
  - destruct (py_sort id false codes) as [|c rest]; [constructor|].
    by apply runs_from_ordered.
  - destruct (py_sort id false codes) as [|c rest]; [constructor|].
    by apply runs_from_maximal.
Qed.

Lemma create_unicode_range_spec_witness :
  merge_runs (py_sort id false [90; 66; 65; 67]) = [(65, 67); (90, 90)]
  ∧ hex_value (format_04X 0x4E2D) = 0x4E2D
  ∧ length (format_04X 0x4E2D) = 4%nat.
Proof.
  split; [reflexivity|].
  destruct (proj1 (proj2 create_unicode_range_spec) 0x4E2D ltac:(lia))
    as (Hv & _ & _ & Hl & _).
  split; [exact Hv|]. apply Hl. lia.
Defined.

(** ** [load_frequency_data] *)

Lemma load_line_cases (char_freq : gmap (list Z) Z) line :
  (∃ char freq_value,
      data_line line char freq_value
      ∧ load_line char_freq line = <[char := freq_value]> char_freq)
  ∨ load_line char_freq line = char_freq.
Proof.
  unfold load_line, data_line.
  case_bool_decide as Hnil; simpl; [by right|].
  destruct (startswith HASH (strip line)) eqn:Hhash; [by right|].
  destruct (line_parts (strip line)) as [|char [|field rest]] eqn:Hparts;
    [by right..|].
  destruct (py_int field) as [freq_value|] eqn:Hint; [|by right].
  left. exists char, freq_value. eauto 10.
Qed.

(** A property of the table that every line keeps holds for the table of
    the whole file. *)
Lemma load_lines_invariant (P : gmap (list Z) Z → Prop) lines char_freq :
  P char_freq →
  (∀ cf line, line ∈ lines → P cf → P (load_line cf line)) →
  P (foldl load_line char_freq lines).
Proof.
  revert char_freq. induction lines as [|line lines IH]; intros cf H0 Hstep.
  { done. }
  simpl. apply IH.
  - apply Hstep; [left|done].
  - intros cf' line' Hin. apply Hstep. by right.
Qed.

Lemma load_frequency_data_entry w path char freq_value :
  load_frequency_data w path !! char = Some freq_value →
  ∃ line, line ∈ file_lines w path ∧ data_line line char freq_value.
Proof.
  unfold load_frequency_data. revert char freq_value.
  apply (load_lines_invariant (λ cf, ∀ char freq_value,
    cf !! char = Some freq_value →
    ∃ line, line ∈ file_lines w path ∧ data_line line char freq_value)).
  { intros char v. by rewrite lookup_empty. }
  intros cf line Hin IH char v.
  destruct (load_line_cases cf line) as [(k & v' & Hdata & ->)| ->]; [|apply IH].
  rewrite lookup_insert. case_decide; [|apply IH].
  intros [= <-]. subst. eauto.
Qed.

(** C5, as the code has it.  Every key of the table the loader returns is
    the first field of a data line of the file, and its value is the integer
    that the second field of that line parses to.  The loader does not check
    either field further: the key is a single character and the value is
    non-negative when that holds for the data lines of the file. *)
Theorem load_frequency_data_entries (w : world) (freq_file_path : list Z) :
  (∀ char freq_value,
      load_frequency_data w freq_file_path !! char = Some freq_value →
      ∃ line, line ∈ file_lines w freq_file_path
              ∧ data_line line char freq_value)
  ∧ ((∀ line char freq_value,
         line ∈ file_lines w freq_file_path →
         data_line line char freq_value →
         length char = 1%nat ∧ 0 ≤ freq_value) →
     well_formed_table (load_frequency_data w freq_file_path)).
Proof.
  split; [apply load_frequency_data_entry|].
  intros Hlines char v (line & Hin & Hdata)%load_frequency_data_entry.
  by apply (Hlines line).
Qed.

Lemma load_frequency_data_entries_witness :
  load_frequency_data (world_with_lines [lit "a,5" ++ nl; lit "b" ++ [TAB] ++ lit "7" ++ nl]) []
    = {[ lit "a" := 5; lit "b" := 7 ]}
  ∧ ∃ line, line ∈ [lit "a,5" ++ nl; lit "b" ++ [TAB] ++ lit "7" ++ nl]
            ∧ data_line line (lit "b") 7.
Proof.
  split; [by vm_compute|].
  apply (proj1 (load_frequency_data_entries
    (world_with_lines [lit "a,5" ++ nl; lit "b" ++ [TAB] ++ lit "7" ++ nl]) [])).
  by vm_compute.
Defined.

(** The line [ab,-5]: a key of two characters with a negative value. *)
Lemma well_formed_table_counterexample :
  load_frequency_data (world_with_lines [lit "ab,-5" ++ nl]) (lit "freq.txt")
    !! lit "ab" = Some (-5)
  ∧ ¬ well_formed_table
        (load_frequency_data (world_with_lines [lit "ab,-5" ++ nl])
                             (lit "freq.txt")).
Proof.
  assert (load_frequency_data (world_with_lines [lit "ab,-5" ++ nl])
            (lit "freq.txt") !! lit "ab" = Some (-5)) as Hab by by vm_compute.
  split; [done|].
  intros Hwf. destruct (Hwf _ _ Hab) as [Hlen _]. vm_compute in Hlen. lia.
Qed.

(** *** Fields *)

Lemma split_nonempty sep s : split sep s ≠ [].
Proof.
  destruct s as [|c s]; simpl; [done|].
  destruct (c =? sep); [done|]. by destruct (split sep s).
Qed.

Lemma join_cons sep p ps : ps ≠ [] → join sep (p :: ps) = p ++ sep ++ join sep ps.
Proof. by destruct ps. Qed.

Lemma join_split sep s : join [sep] (split sep s) = s.
Proof.
  induction s as [|c s IH]; simpl; [done|].
  pose proof (split_nonempty sep s) as Hne.
  destruct (Z.eqb_spec c sep) as [->|Hc].
  - rewrite join_cons by done. simpl. by rewrite IH.
  - destruct (split sep s) as [|f fs]; [done|].
    destruct fs as [|f' fs]; simpl in *; by rewrite <- IH.
Qed.

Lemma split_no_sep sep s : Forall (λ field, sep ∉ field) (split sep s).
Proof.
  induction s as [|c s IH]; simpl.
  { repeat constructor. apply not_elem_of_nil. }
  destruct (Z.eqb_spec c sep) as [->|Hc].
  - constructor; [apply not_elem_of_nil|done].
  - pose proof (split_nonempty sep s) as Hne.
    destruct (split sep s) as [|f fs]; [done|].
    apply Forall_cons in IH as [Hf Hfs]. constructor; [|done].
    rewrite elem_of_cons. intros [?|?]; done.
Qed.

Lemma split_two_fields sep s :
  sep ∈ s → ∃ char field rest, split sep s = char :: field :: rest.
Proof.
  induction s as [|c s IH]; [by intros ?%elem_of_nil|].
  intros Hin. simpl. pose proof (split_nonempty sep s) as Hne.
  destruct (Z.eqb_spec c sep) as [->|Hc].
  - destruct (split sep s) as [|f fs]; [done|]. eauto.
  - apply elem_of_cons in Hin as [?|Hin]; [done|].
    destruct (IH Hin) as (char & field & rest & ->). eauto.
Qed.

Lemma split_head_prefix sep s char rest :
  split sep s = char :: rest → ∃ tail, s = char ++ tail.
Proof.
  intros Hsplit. pose proof (join_split sep s) as Hjoin.
  rewrite Hsplit in Hjoin. destruct rest as [|field rest].
  - exists []. simpl in Hjoin. by rewrite app_nil_r.
  - rewrite join_cons in Hjoin by done. eauto.
Qed.

(** C6, as the code has it.  A line that is neither blank nor a comment and
    that contains a tab is split at every tab, not only at the first: its
    fields are the pieces between the tabs, and the loader takes the first
    as the character and the second as the frequency, whatever follows.
    Only a line without a tab is split at its commas.  The line
    [a<TAB>5<TAB>9] has the fields [a], [5] and [9], and stores 5 for
    [a]. *)
Theorem load_line_tab_fields (char_freq : gmap (list Z) Z) (line : list Z) :
  strip line ≠ [] →
  startswith HASH (strip line) = false →
  (TAB ∈ strip line →
     ∃ char field rest,
       split TAB (strip line) = char :: field :: rest
       ∧ Forall (λ f, TAB ∉ f) (char :: field :: rest)
       ∧ join [TAB] (char :: field :: rest) = strip line
       ∧ load_line char_freq line
         = match py_int field with
           | Some freq_value => <[char := freq_value]> char_freq
           | None => char_freq
           end)
  ∧ (TAB ∉ strip line →
     load_line char_freq line
     = match split COMMA (strip line) with
       | char :: field :: _ =>
         match py_int field with
         | Some freq_value => <[char := freq_value]> char_freq
         | None => char_freq
         end
       | _ => char_freq
       end)
  ∧ load_line char_freq (lit "a" ++ [TAB] ++ lit "5" ++ [TAB] ++ lit "9" ++ nl)
    = <[lit "a" := 5]> char_freq.
Proof.
  intros Hne Hhash. split_and!.
  - intros Htab. destruct (split_two_fields _ _ Htab) as (char & field & rest & Hs).
    exists char, field, rest. split_and!; [done| | |].
    + rewrite <- Hs. apply split_no_sep.
    + rewrite <- Hs. apply join_split.
    + unfold load_line, line_parts. rewrite Hhash.
      rewrite bool_decide_eq_false_2 by done. simpl.
      rewrite bool_decide_eq_true_2 by done. by rewrite Hs.
  - intros Htab. unfold load_line, line_parts. rewrite Hhash.
    rewrite bool_decide_eq_false_2 by done. simpl.
    by rewrite bool_decide_eq_false_2 by done.
  - reflexivity.
Qed.

Lemma load_line_tab_fields_witness :
  split TAB (strip (lit "a" ++ [TAB] ++ lit "5" ++ [TAB] ++ lit "9" ++ nl))
    = [lit "a"; lit "5"; lit "9"]
  ∧ load_line ∅ (lit "a" ++ [TAB] ++ lit "5" ++ [TAB] ++ lit "9" ++ nl)
    = <[lit "a" := 5]> ∅.
Proof.
  split; [reflexivity|].
  apply (load_line_tab_fields ∅
           (lit "a" ++ [TAB] ++ lit "5" ++ [TAB] ++ lit "9" ++ nl));
    by vm_compute.
Defined.

(** The line [a<TAB>5<TAB>9]: cut at the first tab only, its second field
    would not parse and the line would be skipped; the loader stores 5. *)
Lemma load_line_first_tab_counterexample :
  load_line_first_tab ∅ (lit "a" ++ [TAB] ++ lit "5" ++ [TAB] ++ lit "9" ++ nl)
    = ∅
  ∧ load_line ∅ (lit "a" ++ [TAB] ++ lit "5" ++ [TAB] ++ lit "9" ++ nl)
    = {[ lit "a" := 5 ]}
  ∧ load_frequency_data
      (world_with_lines [lit "a" ++ [TAB] ++ lit "5" ++ [TAB] ++ lit "9" ++ nl])
      (lit "freq.txt") !! lit "a" = Some 5
  ∧ load_line ∅ (lit "a" ++ [TAB] ++ lit "5" ++ [TAB] ++ lit "9" ++ nl)
    ≠ load_line_first_tab ∅
        (lit "a" ++ [TAB] ++ lit "5" ++ [TAB] ++ lit "9" ++ nl).
Proof.
  split_and!; [by vm_compute..|].
  intros H. apply (f_equal (λ m : gmap (list Z) Z, m !! lit "a")) in H.
  by vm_compute in H.
Qed.

(** *** Whitespace *)

Lemma lstrip_by_head space s c rest :
  lstrip_by space s = c :: rest → space c = false.
Proof.
  induction s as [|c' s IH]; simpl; [done|].
  destruct (space c') eqn:Hc'; [done|]. by intros [= <- _].
Qed.

Lemma lstrip_by_suffix space s : ∃ ws, s = ws ++ lstrip_by space s.
Proof.
  induction s as [|c s [ws IH]]; simpl; [by exists []|].
  destruct (space c); [|by exists []].
  exists (c :: ws). simpl. by rewrite <- IH.
Qed.

Lemma lstrip_by_whitespace space ws s :
  Forall (λ c, space c = true) ws → lstrip_by space (ws ++ s) = lstrip_by space s.
Proof. induction 1 as [|c ws Hc _ IH]; simpl; [done|]. by rewrite Hc. Qed.

Lemma rstrip_by_prefix space s : ∃ ws, s = rstrip_by space s ++ ws.
Proof.
  unfold rstrip_by. destruct (lstrip_by_suffix space (reverse s)) as [ws Hws].
  exists (reverse ws).
  rewrite <- reverse_app, <- Hws. by rewrite reverse_involutive.
Qed.

Lemma strip_head line c rest : strip line = c :: rest → isspace c = false.
Proof.
  unfold strip, strip_by. intros Hs.
  destruct (rstrip_by_prefix isspace (lstrip_by isspace line)) as [ws Hws].
  rewrite Hs in Hws. by apply lstrip_by_head in Hws.
Qed.

Lemma line_parts_head_prefix s char rest :
  line_parts s = char :: rest → ∃ tail, s = char ++ tail.
Proof. unfold line_parts. case_bool_decide; apply split_head_prefix. Qed.

Lemma data_line_key_head line c char freq_value :
  data_line line (c :: char) freq_value → isspace c = false.
Proof.
  intros (_ & _ & field & rest & Hparts & _).
  apply line_parts_head_prefix in Hparts as [tail Htail].
  by apply strip_head in Htail.
Qed.

Lemma load_line_leading_whitespace (char_freq : gmap (list Z) Z) ws line :
  Forall (λ c, isspace c = true) ws →
  load_line char_freq (ws ++ line) = load_line char_freq line.
Proof.
  intros Hws. unfold load_line, strip, strip_by.
  by rewrite lstrip_by_whitespace.
Qed.

Lemma elem_of_rank_chars freq_data all_chars c f :
  (c, f) ∈ rank_chars freq_data all_chars →
  f = default 0 (freq_data !! [c]).
Proof.
  unfold rank_chars. rewrite py_sort_Permutation, list_elem_of_fmap.
  by intros (c' & [= -> ->] & _).
Qed.

(** C10, as the code has it.  The loader strips every line before it splits
    it, so leading whitespace never reaches a field: a line is loaded as the
    same line without its leading whitespace, and no key of the table
    starts with a whitespace character.  No whitespace character is
    therefore ever a key, and every whitespace character is ranked with the
    default frequency 0. *)
Theorem whitespace_never_keyed (w : world) (freq_file_path : list Z) :
  (∀ (char_freq : gmap (list Z) Z) ws line,
      Forall (λ c, isspace c = true) ws →
      load_line char_freq (ws ++ line) = load_line char_freq line)
  ∧ (∀ c rest,
      isspace c = true →
      load_frequency_data w freq_file_path !! (c :: rest) = None)
  ∧ (∀ all_chars c f,
      isspace c = true →
      (c, f) ∈ rank_chars (load_frequency_data w freq_file_path) all_chars →
      f = 0).
Proof.
  assert (∀ c rest, isspace c = true →
            load_frequency_data w freq_file_path !! (c :: rest) = None) as Hkey.
  { intros c rest Hc.
    destruct (load_frequency_data w freq_file_path !! (c :: rest)) as [v|] eqn:Hv;
      [|done].
    apply load_frequency_data_entry in Hv as (line & _ & Hdata).
    apply data_line_key_head in Hdata. congruence. }
  split_and!; [apply load_line_leading_whitespace|done|].
  intros all_chars c f Hc ->%elem_of_rank_chars. by rewrite Hkey.
Qed.

Lemma whitespace_never_keyed_witness :
  load_frequency_data
    (world_with_lines [lit " " ++ [TAB] ++ lit "5" ++ nl; lit "a,3" ++ nl])
    (lit "freq.txt") = {[ lit "a" := 3 ]}
  ∧ load_frequency_data
      (world_with_lines [lit " " ++ [TAB] ++ lit "5" ++ nl; lit "a,3" ++ nl])
      (lit "freq.txt") !! [32] = None.
Proof.
  split; [by vm_compute|].
  apply (proj1 (proj2 (whitespace_never_keyed
    (world_with_lines [lit " " ++ [TAB] ++ lit "5" ++ nl; lit "a,3" ++ nl])
    (lit "freq.txt")))).
  reflexivity.
Defined.

(** The line of a space, a comma and 5 is not ignored: it puts 5 into the
    table, under the empty key. *)
Lemma whitespace_line_ignored_counterexample :
  Forall (λ c, isspace c = true) (lit " ")
  ∧ py_int (lit "5") = Some 5
  ∧ load_frequency_data (world_with_lines [lit " ,5" ++ nl]) (lit "freq.txt")
    = {[ [] := 5 ]}
  ∧ ¬ whitespace_line_ignored (lit " " ++ [COMMA] ++ lit "5" ++ nl).
Proof.
  split_and!; [by repeat constructor|reflexivity|by vm_compute|].
  intros H. specialize (H ∅).
  apply (f_equal (λ m : gmap (list Z) Z, m !! [])) in H.
  by vm_compute in H.
Qed.

(** ** Step 5: the subset emitter *)

Lemma emit_group_cases w a css_rules ig :
  emit_group w a css_rules ig
  = if bool_decide (ig.2 ≠ []) && subset_produced w a ig
    then css_rules ++ [rule_of a ig] else css_rules.
Proof.
  destruct ig as [i group]. unfold emit_group, subset_produced, rule_of. simpl.
  destruct group as [|c group]; [done|].
  rewrite bool_decide_eq_true_2 by done. simpl.
  destruct (subprocess_run w _); [|done]. simpl.
  destruct (getsize w _) as [size|].
  - by rewrite bool_decide_eq_true_2 by by eexists.
  - rewrite bool_decide_eq_false_2; [done|]. by intros [? [=]].
Qed.

Lemma emit_loop_filter w a css_rules igs :
  foldl (emit_group w a) css_rules igs
  = css_rules
    ++ (rule_of a <$> filter (λ ig, ig.2 ≠ [] ∧ subset_produced w a ig = true) igs).
Proof.
  revert css_rules. induction igs as [|ig igs IH]; intros css_rules; simpl.
  { by rewrite app_nil_r. }
  rewrite IH, emit_group_cases, filter_cons.
  case_bool_decide as Hne; simpl.
  - destruct (subset_produced w a ig) eqn:Hp.
    + rewrite decide_True by done. by rewrite <- app_assoc.
    + rewrite decide_False; [done|]. by intros [_ [=]].
  - rewrite decide_False; [done|]. by intros [? _].
Qed.

(** C3.  The emitter goes through the groups in order and adds one style
    rule for every non-empty group whose subset was produced, and nothing
    for any other group.  A group whose subsetting call fails leaves the
    rules collected so far as they are, and the loop goes on with the next
    group.  The run is not aborted: with both input files present it ends
    normally, whatever the calls return, with a stylesheet that holds the
    collected rules in group order.  When the file of every successful call
    is there, the groups with a rule are exactly the non-empty groups whose
    call succeeded. *)
Theorem emit_groups_isolates_failures (w : world) (a : args) :
  (∀ groups,
      emit_groups w a groups
      = rule_of a <$> filter (λ ig, ig.2 ≠ [] ∧ subset_produced w a ig = true)
                             (enumerate groups))
  ∧ (∀ css_rules i group,
      subprocess_run w (subset_cmd a i group) = false →
      emit_group w a css_rules (i, group) = css_rules)
  ∧ (∀ css_rules i group rest,
      subprocess_run w (subset_cmd a i group) = false →
      foldl (emit_group w a) css_rules ((i, group) :: rest)
      = foldl (emit_group w a) css_rules rest)
  ∧ (isfile w (input a) = true → isfile w (freq a) = true →
      ∃ css_rules,
        main w a = Completed css_rules (css a) (css_text css_rules)
        ∧ css_rules
          = emit_groups w a
              (make_groups (groups a)
                 (rank_chars (load_frequency_data w (freq a))
                             (get_chars_from_font w (input a)))))
  ∧ ((∀ i group,
         subprocess_run w (subset_cmd a i group) = true →
         is_Some (getsize w (path_join (output_dir a) (subset_filename i)))) →
      ∀ groups,
        emit_groups w a groups
        = rule_of a <$> filter (λ ig, ig.2 ≠ []
                                ∧ subprocess_run w (subset_cmd a ig.1 ig.2) = true)
                               (enumerate groups)).
Proof.
  assert (∀ css_rules i group,
      subprocess_run w (subset_cmd a i group) = false →
      emit_group w a css_rules (i, group) = css_rules) as Hfail.
  { intros css_rules i group Hrun. rewrite emit_group_cases.
    unfold subset_produced. simpl. rewrite Hrun. simpl.
    by rewrite andb_false_r. }
  split_and!.
  - intros groups. unfold emit_groups. by rewrite emit_loop_filter.
  - done.
  - intros css_rules i group rest Hrun. cbn [foldl]. by rewrite Hfail.
  - intros Hin Hfreq. eexists. split; [|done].
    unfold main. by rewrite Hin, Hfreq.
  - intros Hfile groups. unfold emit_groups. rewrite emit_loop_filter. simpl.
    f_equal. apply list_filter_iff. intros [i group]. simpl.
    unfold subset_produced. simpl. rewrite andb_true_iff, bool_decide_eq_true.
    naive_solver.
Qed.

Lemma emit_groups_isolates_failures_witness :
  emit_groups world_failing_second (sample_args 3) [[97]; [98]; [99]]
  = [css_rule (sample_args 3) 0 (lit "U+0061");
     css_rule (sample_args 3) 2 (lit "U+0063")]
  ∧ ∃ css_rules,
      main world_failing_second (sample_args 3)
        = Completed css_rules (lit "result.css") (css_text css_rules)
      ∧ length css_rules = 2%nat.
Proof.
  split; [by vm_compute|].
  destruct (proj1 (proj2 (proj2 (proj2
      (emit_groups_isolates_failures world_failing_second (sample_args 3)))))
      eq_refl eq_refl) as (css_rules & Hmain & Hrules).
  exists css_rules. split; [exact Hmain|].
  rewrite Hrules. by vm_compute.
Defined.

(** * Further properties *)

(** ** The frequency table as a whole *)

Lemma load_line_entry (char_freq : gmap (list Z) Z) line :
  load_line char_freq line
  = match line_entry line with
    | Some (char, freq_value) => <[char := freq_value]> char_freq
    | None => char_freq
    end.
Proof.
  unfold load_line, line_entry.
  destruct (bool_decide (strip line = []) || startswith HASH (strip line));
    [done|].
  destruct (line_parts (strip line)) as [|char [|field rest]]; [done..|].
  by destruct (py_int field).
Qed.

Lemma line_entry_data_line line char freq_value :
  line_entry line = Some (char, freq_value) ↔ data_line line char freq_value.
Proof.
  unfold line_entry, data_line. split.
  - case_bool_decide as Hnil; simpl; [done|].
    destruct (startswith HASH (strip line)); [done|].
    destruct (line_parts (strip line)) as [|char' [|field rest]]; [done..|].
    destruct (py_int field) as [v|] eqn:Hint; [|done].
    intros [= <- <-]. eauto 10.
  - intros (Hnil & Hhash & field & rest & -> & Hint).
    rewrite bool_decide_eq_false_2, Hhash, Hint by done. done.
Qed.

Lemma load_lines_union (char_freq : gmap (list Z) Z) lines :
  foldl load_line char_freq lines = foldl load_line ∅ lines ∪ char_freq.
Proof.
  induction lines as [|line lines IH] using rev_ind.
  { simpl. by rewrite (left_id_L ∅ (∪)). }
  rewrite !foldl_snoc, IH, !load_line_entry.
  destruct (line_entry line) as [[char v]|]; [|done].
  by rewrite insert_union_l.
Qed.

Lemma load_lines_list_to_map lines :
  foldl load_line ∅ lines
  = list_to_map (reverse (omap line_entry lines)).
Proof.
  induction lines as [|line lines IH] using rev_ind; [done|].
  rewrite foldl_snoc, omap_app, reverse_app, load_line_entry, IH. simpl.
  by destruct (line_entry line) as [[char v]|].
Qed.

(** X1.  The table is made of the entries of the data lines, and of nothing
    else: a key has the value of the last data line that names it, and blank
    lines, comments, lines with fewer than two fields and lines whose
    second field is no integer leave no trace. *)
Theorem load_frequency_data_last_wins (w : world) (freq_file_path : list Z) :
  load_frequency_data w freq_file_path
  = list_to_map (reverse (omap line_entry (file_lines w freq_file_path)))
  ∧ (∀ line char freq_value,
       line_entry line = Some (char, freq_value)
       ↔ data_line line char freq_value)
  ∧ (∀ before line after char freq_value,
       file_lines w freq_file_path = before ++ line :: after →
       data_line line char freq_value →
       (∀ later v, later ∈ after → ¬ data_line later char v) →
       load_frequency_data w freq_file_path !! char = Some freq_value)
  ∧ (∀ char,
       (∀ line v, line ∈ file_lines w freq_file_path → ¬ data_line line char v) →
       load_frequency_data w freq_file_path !! char = None).
Proof.
  split_and!.
  - apply load_lines_list_to_map.
  - apply line_entry_data_line.
  - intros before line after char v Hlines Hdata Hafter.
    unfold load_frequency_data. rewrite Hlines, foldl_app. simpl.
    apply (load_lines_invariant (λ cf, cf !! char = Some v)).
    + rewrite load_line_entry.
      apply line_entry_data_line in Hdata as ->. apply lookup_insert_eq.
    + intros cf later Hin Hcf. rewrite load_line_entry.
      destruct (line_entry later) as [[k v']|] eqn:Hentry; [|done].
      apply line_entry_data_line in Hentry.
      rewrite lookup_insert_ne; [done|]. intros ->. by eapply Hafter.
  - intros char Hnone.
    destruct (load_frequency_data w freq_file_path !! char) as [v|] eqn:Hv;
      [|done].
    apply load_frequency_data_entry in Hv as (line & Hin & Hdata).
    by destruct (Hnone line v).
Qed.

Lemma load_frequency_data_last_wins_witness :
  load_frequency_data
    (world_with_lines [lit "a,1" ++ nl; lit "# note" ++ nl; lit "a,2" ++ nl;
                       lit "b" ++ nl; lit "c,x" ++ nl; nl])
    (lit "freq.txt") !! lit "a" = Some 2.
Proof.
  apply (proj1 (proj2 (proj2 (load_frequency_data_last_wins
    (world_with_lines [lit "a,1" ++ nl; lit "# note" ++ nl; lit "a,2" ++ nl;
                       lit "b" ++ nl; lit "c,x" ++ nl; nl])
    (lit "freq.txt"))))
    [lit "a,1" ++ nl; lit "# note" ++ nl] (lit "a,2" ++ nl)
    [lit "b" ++ nl; lit "c,x" ++ nl; nl]).
  - reflexivity.
  - apply line_entry_data_line. reflexivity.
  - intros later v Hin Hdata. apply line_entry_data_line in Hdata.
    repeat (apply elem_of_cons in Hin as [->|Hin]; [by vm_compute in Hdata|]).
    by apply elem_of_nil in Hin.
Defined.

(** X2.  Loading one file after another: the table of the lines of two
    files put together is the table of the second file, completed by the
    entries of the first for the keys the second does not have. *)
Theorem load_frequency_data_append (w w1 w2 : world) (p p1 p2 : list Z) :
  file_lines w p = file_lines w1 p1 ++ file_lines w2 p2 →
  load_frequency_data w p
  = load_frequency_data w2 p2 ∪ load_frequency_data w1 p1
  ∧ ∀ char,
      load_frequency_data w p !! char
      = match load_frequency_data w2 p2 !! char with
        | Some freq_value => Some freq_value
        | None => load_frequency_data w1 p1 !! char
        end.
Proof.
  intros Hlines.
  assert (load_frequency_data w p
          = load_frequency_data w2 p2 ∪ load_frequency_data w1 p1) as Heq.
  { unfold load_frequency_data. rewrite Hlines, foldl_app.
    apply load_lines_union. }
  split; [done|]. intros char. rewrite Heq, lookup_union.
  destruct (load_frequency_data w2 p2 !! char),
    (load_frequency_data w1 p1 !! char); done.
Qed.

Lemma load_frequency_data_append_witness :
  load_frequency_data
    (world_with_lines [lit "a,1" ++ nl; lit "b,2" ++ nl; lit "a,7" ++ nl])
    (lit "freq.txt")
  = load_frequency_data (world_with_lines [lit "a,7" ++ nl]) (lit "new.txt")
    ∪ load_frequency_data
        (world_with_lines [lit "a,1" ++ nl; lit "b,2" ++ nl]) (lit "old.txt").
Proof.
  apply (load_frequency_data_append
    (world_with_lines [lit "a,1" ++ nl; lit "b,2" ++ nl; lit "a,7" ++ nl])
    (world_with_lines [lit "a,1" ++ nl; lit "b,2" ++ nl])
    (world_with_lines [lit "a,7" ++ nl])).
  reflexivity.
Defined.

Lemma prefix_not_elem_of (x : Z) (k tail s : list Z) :
  s = k ++ tail → x ∉ s → x ∉ k.
Proof. intros -> Hs Hk. apply Hs, elem_of_app. by left. Qed.

Lemma data_line_key_no_tab line char freq_value :
  data_line line char freq_value → TAB ∉ char.
Proof.
  intros (_ & _ & field & rest & Hparts & _). unfold line_parts in Hparts.
  case_bool_decide as Htab.
  - pose proof (split_no_sep TAB (strip line)) as Hsep.
    rewrite Hparts in Hsep. by apply Forall_cons in Hsep as [? _].
  - apply split_head_prefix in Hparts as [tail Htail].
    by eapply prefix_not_elem_of.
Qed.

Lemma data_line_key_no_hash line c char freq_value :
  data_line line (c :: char) freq_value → c ≠ HASH.
Proof.
  intros (_ & Hhash & field & rest & Hparts & _).
  apply line_parts_head_prefix in Hparts as [tail Htail].
  rewrite Htail in Hhash. simpl in Hhash. by apply Z.eqb_neq.
Qed.

(** X3.  No key of the table contains a tab, and no key starts with the
    comment sign.  So the character [#] can never be given a frequency by
    any frequency file: it is always ranked with the default 0. *)
Theorem load_frequency_data_keys (w : world) (freq_file_path : list Z) :
  (∀ char freq_value,
      load_frequency_data w freq_file_path !! char = Some freq_value →
      (TAB ∉ char) ∧ head char ≠ Some HASH)
  ∧ load_frequency_data w freq_file_path !! [HASH] = None
  ∧ (∀ all_chars f,
      (HASH, f) ∈ rank_chars (load_frequency_data w freq_file_path) all_chars →
      f = 0).
Proof.
  assert (∀ char freq_value,
      load_frequency_data w freq_file_path !! char = Some freq_value →
      (TAB ∉ char) ∧ head char ≠ Some HASH) as Hkeys.
  { intros char v (line & _ & Hdata)%load_frequency_data_entry. split.
    - by eapply data_line_key_no_tab.
    - destruct char as [|c char]; [done|]. simpl. intros [= ->].
      by eapply data_line_key_no_hash. }
  assert (load_frequency_data w freq_file_path !! [HASH] = None) as Hhash.
  { destruct (load_frequency_data w freq_file_path !! [HASH]) as [v|] eqn:Hv;
      [|done].
    by destruct (Hkeys _ _ Hv) as [_ []]. }
  split_and!; [done..|].
  intros all_chars f ->%elem_of_rank_chars. by rewrite Hhash.
Qed.

Lemma load_frequency_data_keys_witness :
  load_frequency_data
    (world_with_lines [lit "#,9" ++ nl; lit "a" ++ [TAB] ++ lit "3" ++ nl])
    (lit "freq.txt") = {[ lit "a" := 3 ]}
  ∧ ∀ f, (HASH, f) ∈ rank_chars
            (load_frequency_data
               (world_with_lines [lit "#,9" ++ nl; lit "a" ++ [TAB] ++ lit "3" ++ nl])
               (lit "freq.txt")) [35; 97] → f = 0.
Proof.
  split; [by vm_compute|].
  apply (proj2 (proj2 (load_frequency_data_keys
    (world_with_lines [lit "#,9" ++ nl; lit "a" ++ [TAB] ++ lit "3" ++ nl])
    (lit "freq.txt")))).
Defined.

(** ** The character set and the order of the subtables *)

Lemma get_chars_from_font_sorted w font_path :
  StronglySorted Z.lt (get_chars_from_font w font_path).
Proof.
  apply StronglySorted_le_NoDup_lt.
  - apply (py_sort_sorted id false).
  - unfold get_chars_from_font. rewrite py_sort_Permutation.
    apply NoDup_elements.
Qed.

Lemma StronglySorted_lt_NoDup (l : list Z) : StronglySorted Z.lt l → NoDup l.
Proof.
  induction 1 as [|x l _ IH Hx]; constructor; [|done].
  intros Hin. rewrite Forall_forall in Hx. specialize (Hx x Hin). lia.
Qed.

Lemma StronglySorted_lt_unique (l1 l2 : list Z) :
  StronglySorted Z.lt l1 → StronglySorted Z.lt l2 →
  (∀ x, x ∈ l1 ↔ x ∈ l2) → l1 = l2.
Proof.
  intros H1 H2 Hiff.
  apply (StronglySorted_unique_strong Z.lt); [|done..|].
  - intros. lia.
  - apply NoDup_Permutation; [by apply StronglySorted_lt_NoDup..|done].
Qed.

Lemma elem_of_concat_lists {A} (ls : list (list A)) (x : A) :
  x ∈ concat ls ↔ ∃ l, l ∈ ls ∧ x ∈ l.
Proof.
  induction ls as [|l ls IH]; simpl.
  - split; [by intros ?%elem_of_nil|]. by intros (? & ?%elem_of_nil & _).
  - rewrite elem_of_app, IH. setoid_rewrite elem_of_cons. naive_solver.
Qed.

(** X4.  The character set depends only on which code points the font
    maps: two fonts whose subtables hold the same code points, in whatever
    order, however often and however spread over the subtables, give the
    same character list. *)
Theorem get_chars_from_font_same_keys (w1 w2 : world) (p1 p2 : list Z) :
  (∀ c, category w1 c = category w2 c) →
  (∀ code_point,
      code_point ∈ concat (cmap_tables w1 p1)
      ↔ code_point ∈ concat (cmap_tables w2 p2)) →
  get_chars_from_font w1 p1 = get_chars_from_font w2 p2.
Proof.
  intros Hcat Hkeys.
  apply StronglySorted_lt_unique; [apply get_chars_from_font_sorted..|].
  intros c. rewrite !elem_of_get_chars_from_font. unfold font_char.
  assert (∀ w p cp, cp ∈ concat (cmap_tables w p)
            ↔ ∃ table, table ∈ cmap_tables w p ∧ cp ∈ table) as Hconcat.
  { intros w p cp. apply elem_of_concat_lists. }
  split.
  - intros (table & cp & Ht & Hcp & Hchr & Hne & Hc).
    destruct (proj1 (Hconcat w2 p2 cp)) as (table' & ? & ?).
    { apply Hkeys, Hconcat. eauto. }
    exists table', cp. rewrite <- Hcat. eauto.
  - intros (table & cp & Ht & Hcp & Hchr & Hne & Hc).
    destruct (proj1 (Hconcat w1 p1 cp)) as (table' & ? & ?).
    { apply Hkeys, Hconcat. eauto. }
    exists table', cp. rewrite Hcat. eauto.
Qed.

Lemma get_chars_from_font_same_keys_witness :
  get_chars_from_font (world_with_cmap [[98; 97]; [97; 99; 98]]) (lit "a.ttf")
  = get_chars_from_font (world_with_cmap [[99; 98; 97]]) (lit "b.ttf").
Proof.
  apply (get_chars_from_font_same_keys
    (world_with_cmap [[98; 97]; [97; 99; 98]])
    (world_with_cmap [[99; 98; 97]])).
  - reflexivity.
  - intros cp. simpl. rewrite !elem_of_cons, !elem_of_nil. tauto.
Defined.

(** ** Unicode ranges as sets of code points *)

Lemma StronglySorted_le_unique (l1 l2 : list Z) :
  StronglySorted Z.le l1 → StronglySorted Z.le l2 → l1 ≡ₚ l2 → l1 = l2.
Proof.
  apply (StronglySorted_unique_strong Z.le). intros. lia.
Qed.

Lemma py_sort_codes_Permutation (codes1 codes2 : list Z) :
  codes1 ≡ₚ codes2 → py_sort id false codes1 = py_sort id false codes2.
Proof.
  intros Hp. apply StronglySorted_le_unique.
  - apply (py_sort_sorted id false).
  - apply (py_sort_sorted id false).
  - by rewrite !py_sort_Permutation.
Qed.

(** X5.  The order in which the codes are passed does not matter: two
    lists with the same codes, each as often, give the same range text. *)
Theorem create_unicode_range_Permutation (codes1 codes2 : list Z) :
  codes1 ≡ₚ codes2 →
  create_unicode_range codes1 = create_unicode_range codes2.
Proof.
  intros Hp. rewrite !create_unicode_range_runs.
  by rewrite (py_sort_codes_Permutation _ _ Hp).
Qed.

Lemma create_unicode_range_Permutation_witness :
  create_unicode_range [90; 67; 65; 66] = create_unicode_range [65; 66; 67; 90].
Proof.
  apply create_unicode_range_Permutation.
  change [90; 67; 65; 66] with ([90] ++ [67] ++ [65; 66]).
  change [65; 66; 67; 90] with ([65; 66] ++ [67] ++ [90]).
  rewrite (Permutation_app_comm [90]).
  rewrite (Permutation_app_comm [67]). by rewrite <- app_assoc.
Defined.

(** X6.  The ranges denote the codes that were passed, and no others: a
    code point lies in one of the ranges exactly when it is in the list. *)
Theorem create_unicode_range_covers (codes : list Z) :
  create_unicode_range codes
  = join (lit ", ")
      ((λ r, format_run r.1 r.2) <$> merge_runs (py_sort id false codes))
  ∧ ∀ c, c ∈ codes
         ↔ ∃ r, r ∈ merge_runs (py_sort id false codes) ∧ r.1 ≤ c ≤ r.2.
Proof.
  split; [apply create_unicode_range_runs|]. intros c.
  assert (concat (run_codes <$> merge_runs (py_sort id false codes))
          = py_sort id false codes) as Hcover.
  { destruct (py_sort id false codes) as [|c0 rest]; [done|]. simpl.
    rewrite runs_from_cover by lia. by replace (c0 - c0 + 1) with 1 by lia. }
  assert (c ∈ codes
          ↔ c ∈ concat (run_codes <$> merge_runs (py_sort id false codes)))
    as ->.
  { rewrite Hcover. by rewrite py_sort_Permutation. }
  rewrite elem_of_concat_lists. setoid_rewrite list_elem_of_fmap.
  unfold run_codes. split.
  - intros (l & (r & -> & Hr) & Hc). apply elem_of_seqZ in Hc.
    exists r. split; [done|lia].
  - intros (r & Hr & Hc). exists (seqZ r.1 (r.2 - r.1 + 1)).
    split; [eauto|]. apply elem_of_seqZ. lia.
Qed.

Lemma runs_from_separated start end_ rest :
  StronglySorted Z.lt (end_ :: rest) →
  Sorted (λ r1 r2, r1.2 + 1 < r2.1) (runs_from start end_ rest).
Proof.
  revert start end_. induction rest as [|c rest IH]; intros start end_ Hs; simpl.
  { by repeat constructor. }
  apply StronglySorted_cons in Hs as [Hlt Hs].
  destruct (Z.eqb_spec c (end_ + 1)) as [->|Hne].
  - by apply IH.
  - constructor; [by apply IH|].
    destruct (runs_from_head c c rest) as (e & tl & ->).
    constructor. simpl. apply Forall_cons in Hlt as [? _]. lia.
Qed.

(** X7.  For codes that are all different, as the code points of a group
    are, the ranges come in ascending order and neither overlap nor touch:
    between the end of a range and the start of the next at least one code
    point is left out.  No two of the ranges could be written as one. *)
Theorem create_unicode_range_separated (codes : list Z) :
  NoDup codes →
  Forall (λ r, r.1 ≤ r.2) (merge_runs (py_sort id false codes))
  ∧ Sorted (λ r1 r2, r1.2 + 1 < r2.1) (merge_runs (py_sort id false codes))
  ∧ create_unicode_range codes
    = join (lit ", ")
        ((λ r, format_run r.1 r.2) <$> merge_runs (py_sort id false codes)).
Proof.
  intros Hnd.
  assert (StronglySorted Z.lt (py_sort id false codes)) as Hs.
  { apply StronglySorted_le_NoDup_lt; [apply (py_sort_sorted id false)|].
    by rewrite py_sort_Permutation. }
  split_and!; [| |apply create_unicode_range_runs].
  - destruct (py_sort id false codes) as [|c rest]; [constructor|].
    by apply runs_from_ordered.
  - destruct (py_sort id false codes) as [|c rest]; [constructor|].
    by apply runs_from_separated.
Qed.

Lemma create_unicode_range_separated_witness :
  merge_runs (py_sort id false [70; 65; 66; 68]) = [(65, 66); (68, 68); (70, 70)]
  ∧ Sorted (λ r1 r2 : Z * Z, r1.2 + 1 < r2.1)
      (merge_runs (py_sort id false [70; 65; 66; 68])).
Proof.
  split; [reflexivity|].
  apply (create_unicode_range_separated [70; 65; 66; 68]).
  apply (bool_decide_unpack _). by vm_compute.
Defined.

Lemma seqZ_StronglySorted (k : nat) a :
  StronglySorted Z.le (seqZ a (Z.of_nat k)).
Proof.
  revert a. induction k as [|k IH]; intros a.
  { simpl. constructor. }
  rewrite seqZ_cons by lia. replace (Z.pred (Z.of_nat (S k))) with (Z.of_nat k) by lia.
  constructor; [apply IH|].
  apply Forall_forall. intros x Hx%elem_of_seqZ. lia.
Qed.

Lemma runs_from_block (k : nat) start end_ :
  runs_from start end_ (seqZ (end_ + 1) (Z.of_nat k))
  = [(start, end_ + Z.of_nat k)].
Proof.
  revert end_. induction k as [|k IH]; intros end_.
  { simpl. by rewrite Z.add_0_r. }
  rewrite seqZ_cons by lia. replace (Z.pred (Z.of_nat (S k))) with (Z.of_nat k) by lia.
  simpl. rewrite Z.eqb_refl.
  replace (Z.succ (end_ + 1)) with (end_ + 1 + 1) by lia.
  rewrite IH. do 2 f_equal. lia.
Qed.

(** X8.  A block of two or more consecutive code points, passed in any
    order, is written as the one range from its first to its last code
    point. *)
Theorem create_unicode_range_block (codes : list Z) (first count : Z) :
  2 ≤ count →
  codes ≡ₚ seqZ first count →
  create_unicode_range codes
  = lit "U+" ++ format_04X first ++ lit "-" ++ format_04X (first + count - 1).
Proof.
  intros Hcount Hperm. rewrite create_unicode_range_runs.
  assert (py_sort id false codes = seqZ first count) as ->.
  { apply StronglySorted_le_unique.
    - apply (py_sort_sorted id false).
    - rewrite <- (Z2Nat.id count) by lia. apply seqZ_StronglySorted.
    - by rewrite py_sort_Permutation. }
  assert (merge_runs (seqZ first count) = [(first, first + count - 1)]) as ->.
  { rewrite seqZ_cons by lia. unfold merge_runs.
    replace (Z.pred count) with (Z.of_nat (Z.to_nat (count - 1))) by lia.
    replace (Z.succ first) with (first + 1) by lia.
    rewrite runs_from_block. do 2 f_equal. lia. }
  change (format_run first (first + count - 1)
          = lit "U+" ++ format_04X first ++ lit "-"
            ++ format_04X (first + count - 1)).
  unfold format_run. by rewrite (proj2 (Z.eqb_neq _ _)) by lia.
Qed.

Lemma create_unicode_range_block_witness :
  create_unicode_range [0x4E02; 0x4E00; 0x4E01] = lit "U+4E00-4E02".
Proof.
  apply (create_unicode_range_block [0x4E02; 0x4E00; 0x4E01] 0x4E00 3); [lia|].
  change (seqZ 19968 3) with ([0x4E00; 0x4E01] ++ [0x4E02]).
  change [19970; 19968; 19969] with ([0x4E02] ++ [0x4E00; 0x4E01]).
  apply Permutation_app_comm.
Defined.

(** ** Group sizes in the even and in the sparse case *)

Lemma make_groups_lookup_size (char_freq_list : list (Z * Z)) (G : Z) (i : nat) group :
  make_groups G char_freq_list !! i = Some group →
  Z.of_nat (length group)
  = Z.of_nat (length char_freq_list) / G
    + (if G <=? (Z.of_nat i * Z.of_nat (length char_freq_list)) `mod` G
                + Z.of_nat (length char_freq_list) `mod` G
       then 1 else 0).
Proof.
  intros Hg. assert (Z.of_nat i < G) as Hi.
  { apply lookup_lt_Some in Hg. rewrite make_groups_length in Hg. lia. }
  rewrite (make_groups_lookup_length _ _ _ _ Hg).
  apply boundary_step; lia.
Qed.

(** X9.  When the group count divides the number of characters, all groups
    have the same size, the quotient. *)
Theorem make_groups_even (char_freq_list : list (Z * Z)) (G : Z) :
  1 ≤ G →
  Z.of_nat (length char_freq_list) `mod` G = 0 →
  Forall (λ group,
            Z.of_nat (length group) = Z.of_nat (length char_freq_list) / G)
         (make_groups G char_freq_list).
Proof.
  intros HG Hmod. apply Forall_forall. intros group [i Hg]%list_elem_of_lookup.
  rewrite (make_groups_lookup_size _ _ _ _ Hg), Hmod.
  pose proof (Z.mod_pos_bound (Z.of_nat i * Z.of_nat (length char_freq_list)) G
                ltac:(lia)).
  rewrite (proj2 (Z.leb_gt _ _)) by lia. lia.
Qed.

Lemma make_groups_even_witness :
  (length <$> make_groups 3 [(97, 5); (98, 4); (99, 3); (100, 2); (101, 1); (102, 0)])
  = [2; 2; 2]%nat
  ∧ Forall (λ group : list Z, Z.of_nat (length group) = 6 / 3)
      (make_groups 3 [(97, 5); (98, 4); (99, 3); (100, 2); (101, 1); (102, 0)]).
Proof.
  split; [reflexivity|].
  apply (make_groups_even
    [(97, 5); (98, 4); (99, 3); (100, 2); (101, 1); (102, 0)] 3);
    [lia|reflexivity].
Defined.

Lemma nonempty_count_small_lists {A} (gs : list (list A)) :
  Forall (λ g, (length g ≤ 1)%nat) gs →
  length (filter (λ g, g ≠ []) gs) = length (concat gs).
Proof.
  induction 1 as [|g gs Hg _ IH]; [done|].
  rewrite filter_cons.
  case_decide as Hne; simpl; rewrite length_app;
    destruct g as [|x [|y g]]; simpl in *; done || lia.
Qed.

(** X10.  When there are at least as many groups as characters, no group
    holds more than one character, and the number of groups that are not
    empty is the number of characters. *)
Theorem make_groups_sparse (char_freq_list : list (Z * Z)) (G : Z) :
  1 ≤ G →
  Z.of_nat (length char_freq_list) ≤ G →
  Forall (λ group, (length group ≤ 1)%nat) (make_groups G char_freq_list)
  ∧ length (filter (λ group, group ≠ []) (make_groups G char_freq_list))
    = length char_freq_list.
Proof.
  intros HG Htotal.
  assert (Forall (λ group, (length group ≤ 1)%nat)
                 (make_groups G char_freq_list)) as Hsmall.
  { apply Forall_forall. intros group [i Hg]%list_elem_of_lookup.
    pose proof (make_groups_lookup_size _ _ _ _ Hg) as Hsize.
    set (total := Z.of_nat (length char_freq_list)) in *.
    pose proof (Z.mod_pos_bound (Z.of_nat i * total) G ltac:(lia)).
    destruct (decide (total = G)) as [->|Hne].
    - rewrite Z_div_same, Z_mod_same in Hsize by lia.
      rewrite (proj2 (Z.leb_gt _ _)) in Hsize by lia. lia.
    - rewrite Z.div_small in Hsize by lia.
      destruct (G <=? _) in Hsize; lia. }
  split; [done|].
  rewrite nonempty_count_small_lists by done.
  by rewrite make_groups_concat, length_fmap.
Qed.

Lemma make_groups_sparse_witness :
  make_groups 5 [(97, 2); (98, 1)] = [[]; []; [97]; []; [98]]
  ∧ length (filter (λ group : list Z, group ≠ [])
              (make_groups 5 [(97, 2); (98, 1)])) = 2%nat.
Proof.
  split; [reflexivity|].
  apply (make_groups_sparse [(97, 2); (98, 1)] 5); simpl; lia.
Defined.

(** ** The emitter and the groups together *)

Lemma enumerate_snd {A} (l : list A) : (enumerate l).*2 = l.
Proof. unfold enumerate. apply snd_zip. rewrite length_seqZ. lia. Qed.

Lemma enumerate_length {A} (l : list A) : length (enumerate l) = length l.
Proof. rewrite <- (enumerate_snd l) at 2. by rewrite length_fmap. Qed.

Lemma nonempty_filter_concat_length (P : Z * list Z → Prop)
    `{∀ ig, Decision (P ig)} (igs : list (Z * list Z)) :
  (length (filter (λ ig, ig.2 ≠ [] ∧ P ig) igs) ≤ length (concat igs.*2))%nat.
Proof.
  induction igs as [|[i g] igs IH]; [done|].
  rewrite filter_cons. cbn [fmap list_fmap snd concat]. rewrite length_app.
  case_decide as Hne; cbn [length]; [|lia].
  destruct g; cbn [length] in *; [by destruct Hne|lia].
Qed.

Lemma make_groups_concat_length (G : Z) (char_freq_list : list (Z * Z)) :
  (length (concat (make_groups G char_freq_list)) ≤ length char_freq_list)%nat.
Proof.
  destruct (Z.le_gt_cases 1 G).
  - by rewrite make_groups_concat, length_fmap.
  - rewrite make_groups_nonpositive by lia. simpl. lia.
Qed.

(** X11.  However the subsetting calls end, a run never collects more
    style rules than there are groups, nor more than there are characters
    in the font. *)
Theorem emit_groups_count (w : world) (a : args) (G : Z)
    (char_freq_list : list (Z * Z)) :
  (length (emit_groups w a (make_groups G char_freq_list)) ≤ Z.to_nat G)%nat
  ∧ (length (emit_groups w a (make_groups G char_freq_list))
     ≤ length char_freq_list)%nat
  ∧ (isfile w (input a) = true → isfile w (freq a) = true →
     ∃ css_rules,
       main w a = Completed css_rules (css a) (css_text css_rules)
       ∧ (length css_rules ≤ Z.to_nat (groups a))%nat
       ∧ (length css_rules ≤ length (get_chars_from_font w (input a)))%nat).
Proof.
  assert (∀ l,
    (length (emit_groups w a (make_groups G l)) ≤ Z.to_nat G)%nat
    ∧ (length (emit_groups w a (make_groups G l)) ≤ length l)%nat) as Hcount.
  { intros l. unfold emit_groups. rewrite emit_loop_filter. simpl.
    rewrite length_fmap. split.
    - etrans; [apply length_filter|].
      by rewrite enumerate_length, make_groups_length.
    - etrans; [apply nonempty_filter_concat_length|].
      rewrite enumerate_snd. apply make_groups_concat_length. }
  split_and!; [apply Hcount..|].
  intros Hin Hfreq. unfold main. rewrite Hin, Hfreq. simpl.
  eexists. split; [done|]. clear Hcount.
  set (l := rank_chars _ _).
  assert (length l = length (get_chars_from_font w (input a))) as <-.
  { subst l. unfold rank_chars.
    by rewrite py_sort_Permutation, length_fmap. }
  unfold emit_groups. rewrite emit_loop_filter. simpl.
  rewrite length_fmap. split.
  - etrans; [apply length_filter|].
    by rewrite enumerate_length, make_groups_length.
  - etrans; [apply nonempty_filter_concat_length|].
    rewrite enumerate_snd. apply make_groups_concat_length.
Qed.

Lemma nonempty_filter_concat (igs : list (Z * list Z)) :
  concat (filter (λ ig, ig.2 ≠ []) igs).*2 = concat igs.*2.
Proof.
  induction igs as [|[i g] igs IH]; [done|].
  rewrite filter_cons, fmap_cons. cbn [concat snd]. case_decide as Hne.
  - rewrite fmap_cons. cbn [concat snd]. by rewrite IH.
  - destruct g as [|x g]; [by rewrite IH|done].
Qed.

Lemma rank_chars_chars freq_data all_chars :
  (rank_chars freq_data all_chars).*1 ≡ₚ all_chars.
Proof.
  unfold rank_chars. rewrite py_sort_Permutation, <- list_fmap_compose.
  by rewrite list_fmap_id.
Qed.

(** X12.  When the subset of every non-empty group is produced and the
    group count is at least one, the groups that get a style rule are the
    non-empty groups, and every character of the font is in exactly one of
    them. *)
Theorem main_covers_font (w : world) (a : args) :
  isfile w (input a) = true →
  isfile w (freq a) = true →
  1 ≤ groups a →
  (∀ i group, group ≠ [] → subset_produced w a (i, group) = true) →
  ∃ emitted : list (Z * list Z),
    main w a = Completed (rule_of a <$> emitted) (css a)
                         (css_text (rule_of a <$> emitted))
    ∧ Forall (λ ig, ig.2 ≠ []) emitted
    ∧ concat emitted.*2 ≡ₚ get_chars_from_font w (input a)
    ∧ NoDup (concat emitted.*2).
Proof.
  intros Hin Hfreq HG Hall.
  set (ranked := rank_chars (load_frequency_data w (freq a))
                            (get_chars_from_font w (input a))).
  exists (filter (λ ig, ig.2 ≠ []) (enumerate (make_groups (groups a) ranked))).
  assert (concat (filter (λ ig, ig.2 ≠ [])
                   (enumerate (make_groups (groups a) ranked))).*2
          ≡ₚ get_chars_from_font w (input a)) as Hperm.
  { rewrite nonempty_filter_concat, enumerate_snd, make_groups_concat by done.
    apply rank_chars_chars. }
  split_and!.
  - unfold main. rewrite Hin, Hfreq. simpl. fold ranked.
    unfold emit_groups. rewrite emit_loop_filter. simpl.
    assert (filter (λ ig, ig.2 ≠ [] ∧ subset_produced w a ig = true)
              (enumerate (make_groups (groups a) ranked))
            = filter (λ ig, ig.2 ≠ [])
                (enumerate (make_groups (groups a) ranked))) as ->; [|done].
    apply list_filter_iff. intros [i group]. simpl. naive_solver.
  - apply Forall_forall. by intros ig [? _]%list_elem_of_filter.
  - done.
  - rewrite Hperm. apply StronglySorted_lt_NoDup, get_chars_from_font_sorted.
Qed.

Lemma main_covers_font_witness :
  ∃ emitted : list (Z * list Z),
    main sample_world (sample_args 2)
    = Completed (rule_of (sample_args 2) <$> emitted) (lit "result.css")
                (css_text (rule_of (sample_args 2) <$> emitted))
    ∧ concat emitted.*2 ≡ₚ [97; 98].
Proof.
  destruct (main_covers_font sample_world (sample_args 2))
    as (emitted & Hmain & _ & Hperm & _).
  - reflexivity.
  - reflexivity.
  - simpl. lia.
  - intros i group _. reflexivity.
  - exists emitted. split; [exact Hmain|exact Hperm].
Defined.

Lemma emit_groups_count_witness :
  ∃ css_rules,
    main world_failing_second (sample_args 3)
    = Completed css_rules (lit "result.css") (css_text css_rules)
    ∧ (length css_rules ≤ 3)%nat.
Proof.
  destruct (proj2 (proj2 (emit_groups_count world_failing_second
                            (sample_args 3) 3 [])) eq_refl eq_refl)
    as (css_rules & Hmain & Hlen & _).
  exists css_rules. split; [exact Hmain|exact Hlen].
Defined.

(** ** Frequencies across the groups *)

Lemma rank_chars_descending freq_data all_chars :
  StronglySorted (λ p q : Z * Z, q.2 ≤ p.2) (rank_chars freq_data all_chars).
Proof. apply (py_sort_sorted snd true). Qed.

Lemma elem_of_group_position (char_freq_list : list (Z * Z)) (G : Z)
    (i : nat) group c :
  make_groups G char_freq_list !! i = Some group →
  c ∈ group →
  ∃ (pos : nat) f,
    char_freq_list !! pos = Some (c, f)
    ∧ (Z.to_nat (boundary (Z.of_nat (length char_freq_list)) G (Z.of_nat i))
       ≤ pos
       < Z.to_nat (boundary (Z.of_nat (length char_freq_list)) G
                            (Z.of_nat i + 1)))%nat.
Proof.
  intros Hg Hc. assert (Z.of_nat i < G) as Hi.
  { apply lookup_lt_Some in Hg. rewrite make_groups_length in Hg. lia. }
  rewrite make_groups_lookup in Hg by done. injection Hg as <-.
  apply list_elem_of_lookup in Hc as [k Hk].
  rewrite lookup_drop in Hk. apply lookup_take_Some in Hk as [Hk Hlt].
  rewrite list_lookup_fmap in Hk.
  destruct (char_freq_list !! _) as [[c' f]|] eqn:Hpos; [|done].
  injection Hk as <-. eexists _, f. split; [exact Hpos|]. lia.
Qed.

(** X13.  The groups follow the ranking: a character in an earlier group
    has a frequency at least as high as any character in a later group,
    where a character missing from the table counts with 0. *)
Theorem groups_follow_frequency (freq_data : gmap (list Z) Z)
    (all_chars : list Z) (G : Z) (i j : nat) (gi gj : list Z) (c d : Z) :
  make_groups G (rank_chars freq_data all_chars) !! i = Some gi →
  make_groups G (rank_chars freq_data all_chars) !! j = Some gj →
  (i < j)%nat →
  c ∈ gi → d ∈ gj →
  default 0 (freq_data !! [d]) ≤ default 0 (freq_data !! [c]).
Proof.
  intros Hgi Hgj Hij Hc Hd.
  assert (Z.of_nat j < G) as Hj.
  { apply lookup_lt_Some in Hgj. rewrite make_groups_length in Hgj. lia. }
  destruct (elem_of_group_position _ _ _ _ _ Hgi Hc) as (p & fc & Hp & Hpb).
  destruct (elem_of_group_position _ _ _ _ _ Hgj Hd) as (q & fd & Hq & Hqb).
  set (ranked := rank_chars freq_data all_chars) in *.
  pose proof (boundary_mono (Z.of_nat (length ranked)) G
                (Z.of_nat i + 1) (Z.of_nat j) ltac:(lia) ltac:(lia) ltac:(lia)).
  assert (p < q)%nat as Hpq by lia.
  pose proof (StronglySorted_lookup_lt _ _ _ _ _ _
                (rank_chars_descending freq_data all_chars) Hpq Hp Hq) as Hle.
  simpl in Hle.
  apply list_elem_of_lookup_2 in Hp, Hq.
  apply elem_of_rank_chars in Hp, Hq. by subst.
Qed.

Lemma groups_follow_frequency_witness :
  make_groups 2 (rank_chars {[ [98] := 7; [100] := 3 ]} [97; 98; 99; 100])
  = [[98; 100]; [97; 99]]
  ∧ default 0 (({[ [98] := 7; [100] := 3 ]} : gmap (list Z) Z) !! [97])
    ≤ default 0 (({[ [98] := 7; [100] := 3 ]} : gmap (list Z) Z) !! [100]).
Proof.
  split; [by vm_compute|].
  apply (groups_follow_frequency {[ [98] := 7; [100] := 3 ]}
           [97; 98; 99; 100] 2 0 1 [98; 100] [97; 99] 100 97).
  - by vm_compute.
  - by vm_compute.
  - lia.
  - apply elem_of_cons. right. apply elem_of_cons. by left.
  - apply elem_of_cons. by left.
Defined.

(** ** Lines for characters the font does not have *)

Lemma load_lines_agree (k : list Z) (m1 m2 : gmap (list Z) Z) lines :
  (∀ key, key ≠ k → m1 !! key = m2 !! key) →
  ∀ key, key ≠ k →
    foldl load_line m1 lines !! key = foldl load_line m2 lines !! key.
Proof.
  revert m1 m2. induction lines as [|line lines IH]; intros m1 m2 Hm; [done|].
  simpl. apply IH. intros key Hkey. rewrite !load_line_entry.
  destruct (line_entry line) as [[char v]|]; [|by apply Hm].
  rewrite !lookup_insert. case_decide; [done|by apply Hm].
Qed.

(** X14.  A line of the frequency file whose first field is not a
    character of the font, be it a character the font lacks, a longer text
    or the empty text, changes nothing in the ranking, wherever in the
    file it stands. *)
Theorem foreign_line_no_effect (w1 w2 : world) (p1 p2 : list Z)
    (before after : list (list Z)) (line : list Z) (all_chars : list Z) :
  file_lines w1 p1 = before ++ after →
  file_lines w2 p2 = before ++ line :: after →
  (∀ char v c, data_line line char v → c ∈ all_chars → char ≠ [c]) →
  rank_chars (load_frequency_data w2 p2) all_chars
  = rank_chars (load_frequency_data w1 p1) all_chars.
Proof.
  intros H1 H2 Hforeign. unfold rank_chars. f_equal.
  apply list_fmap_ext. intros _ c Hc%list_elem_of_lookup_2. do 2 f_equal.
  unfold load_frequency_data. rewrite H1, H2, !foldl_app. simpl.
  rewrite load_line_entry.
  destruct (line_entry line) as [[char v]|] eqn:Hentry; [|done].
  apply line_entry_data_line in Hentry.
  apply (load_lines_agree char).
  - intros key Hkey. by rewrite lookup_insert_ne.
  - intros Heq. by apply (Hforeign char v c).
Qed.

Lemma foreign_line_no_effect_witness :
  rank_chars
    (load_frequency_data
       (world_with_lines [lit "b,5" ++ nl; lit "zz,9" ++ nl; lit "a,2" ++ nl])
       (lit "freq.txt")) [97; 98]
  = rank_chars
      (load_frequency_data
         (world_with_lines [lit "b,5" ++ nl; lit "a,2" ++ nl])
         (lit "freq.txt")) [97; 98].
Proof.
  apply (foreign_line_no_effect
    (world_with_lines [lit "b,5" ++ nl; lit "a,2" ++ nl])
    (world_with_lines [lit "b,5" ++ nl; lit "zz,9" ++ nl; lit "a,2" ++ nl])
    (lit "freq.txt") (lit "freq.txt")
    [lit "b,5" ++ nl] [lit "a,2" ++ nl] (lit "zz,9" ++ nl)).
  - reflexivity.
  - reflexivity.
  - intros char v c Hdata%line_entry_data_line _ Heq. subst char.
    by vm_compute in Hdata.
Defined.

(** ** The names of the subset files *)

Lemma dec_value_snoc ds c : dec_value (ds ++ [c]) = 10 * dec_value ds + (c - 48).
Proof. unfold dec_value. by rewrite foldl_app. Qed.

Lemma dec_value_zeros (k : nat) ds :
  dec_value (replicate k 48 ++ ds) = dec_value ds.
Proof. induction k as [|k IH]; [done|]. exact IH. Qed.

Lemma pow2_fuel_tenth fuel n :
  0 ≤ n < 2 ^ Z.of_nat (S fuel) → 0 ≤ n / 10 < 2 ^ Z.of_nat fuel.
Proof.
  rewrite Nat2Z.inj_succ, Z.pow_succ_r by lia. intros Hn.
  split; [apply Z.div_pos; lia|].
  apply Z.div_lt_upper_bound; lia.
Qed.

Lemma dec_value_digits_of fuel n :
  0 ≤ n < 2 ^ Z.of_nat fuel → dec_value (digits_of fuel 10 n []) = n.
Proof.
  revert n. induction fuel as [|fuel IH]; intros n Hn.
  { simpl in *. unfold dec_value. simpl. lia. }
  pose proof (Z.mod_pos_bound n 10 ltac:(lia)) as Hmod.
  assert (digit_char (n `mod` 10) - 48 = n `mod` 10) as Hdigit.
  { unfold digit_char. rewrite (proj2 (Z.ltb_lt _ _)) by lia. lia. }
  destruct (Z.lt_ge_cases n 10).
  - rewrite digits_of_small by done.
    change (dec_value [digit_char (n `mod` 10)])
      with (10 * 0 + (digit_char (n `mod` 10) - 48)).
    rewrite Hdigit, Z.mod_small; lia.
  - rewrite digits_of_large, dec_value_snoc by done.
    rewrite IH by by apply pow2_fuel_tenth.
    rewrite Hdigit. pose proof (Z.div_mod n 10 ltac:(lia)). lia.
Qed.

Lemma format_03d_value n : 0 ≤ n → dec_value (format_03d n) = n.
Proof.
  intros Hn. unfold format_03d, zero_pad, to_digits.
  rewrite Z.abs_eq by done. rewrite (proj2 (Z.ltb_ge _ _) Hn).
  rewrite dec_value_zeros. apply dec_value_digits_of. by apply to_digits_fuel.
Qed.

Lemma subset_filename_unfold k :
  subset_filename k
  = lit "AlibabaPuHuiTi-subset-" ++ format_03d k ++ lit ".woff2".
Proof. reflexivity. Qed.

Lemma subset_filename_inj i j :
  0 ≤ i → 0 ≤ j → subset_filename i = subset_filename j → i = j.
Proof.
  intros Hi Hj Heq. rewrite !subset_filename_unfold in Heq.
  apply app_inv_head, app_inv_tail in Heq.
  by rewrite <- (format_03d_value i), <- (format_03d_value j), Heq.
Qed.

Lemma subset_filename_prefix :
  lit "AlibabaPuHuiTi-subset-" = 65 :: lit "libabaPuHuiTi-subset-".
Proof. by vm_compute. Qed.

Lemma path_join_relative dir :
  ∃ prefix, ∀ name, startswith 47 name = false →
    path_join dir name = prefix ++ name.
Proof.
  unfold path_join. destruct (last dir) as [c|].
  - destruct (c =? 47).
    + exists dir. by intros name ->.
    + exists (dir ++ [47]). intros name ->. by rewrite <- app_assoc.
  - exists []. by intros name ->.
Qed.

Lemma path_join_subset_filename dir :
  ∃ prefix, ∀ k,
    path_join dir (subset_filename k) = prefix ++ subset_filename k.
Proof.
  destruct (path_join_relative dir) as [prefix Hprefix].
  exists prefix. intros k. apply Hprefix.
  by rewrite subset_filename_unfold, subset_filename_prefix.
Qed.

Lemma enumerate_lookup {A} (l : list A) (k : nat) i x :
  enumerate l !! k = Some (i, x) → i = Z.of_nat k.
Proof.
  unfold enumerate. intros H. apply lookup_zip_with_Some in H
    as (i' & x' & [= <- <-] & Hi & _).
  apply lookup_seqZ in Hi as [-> _]. lia.
Qed.

(** X15.  No two groups of a run are written to the same file: the file
    names of different group numbers differ, whatever the output
    directory. *)
Theorem subset_paths_distinct (a : args) (groups : list (list Z))
    (k1 k2 : nat) (i1 i2 : Z) (g1 g2 : list Z) :
  enumerate groups !! k1 = Some (i1, g1) →
  enumerate groups !! k2 = Some (i2, g2) →
  path_join (output_dir a) (subset_filename i1)
  = path_join (output_dir a) (subset_filename i2) →
  k1 = k2.
Proof.
  intros H1%enumerate_lookup H2%enumerate_lookup Hpath.
  destruct (path_join_subset_filename (output_dir a)) as [prefix Hprefix].
  rewrite !Hprefix in Hpath. apply app_inv_head in Hpath.
  apply subset_filename_inj in Hpath; lia.
Qed.

Lemma subset_paths_distinct_witness :
  path_join (lit "subsets") (subset_filename 7)
  = lit "subsets/AlibabaPuHuiTi-subset-007.woff2"
  ∧ path_join (lit "subsets") (subset_filename 1)
    ≠ path_join (lit "subsets") (subset_filename 2).
Proof.
  split; [reflexivity|]. intros Hpath.
  assert (1%nat = 2%nat); [|done].
  by apply (subset_paths_distinct (sample_args 3) [[97]; [98]; [99]]
              1 2 1 2 [98] [99]).
Defined.

(** ** [test.py] and the loader *)

Example read_lines_examples :
  read_lines (lit "a" ++ [TAB] ++ lit "1" ++ nl ++ [13; TAB] ++ lit "1" ++ nl)
    = [lit "a" ++ [TAB] ++ lit "1" ++ nl; nl; [TAB] ++ lit "1" ++ nl]
  ∧ read_lines (lit "x" ++ [13; 10] ++ lit "y" ++ [13] ++ lit "z")
    = [lit "x" ++ nl; lit "y" ++ nl; lit "z"]
  ∧ read_lines [] = [] ∧ read_lines [13; 13; 10; 10] = [nl; nl; nl].
Proof. repeat split; reflexivity. Qed.

Lemma isspace_false_neq c : isspace c = false → c ≠ 9 ∧ c ≠ 10 ∧ c ≠ 13.
Proof. intros Hc. split_and!; intros ->; by vm_compute in Hc. Qed.

Lemma read_lines_test_line c rest :
  read_lines_from [] (test_line c ++ rest)
  = (if bool_decide (c = 10 ∨ c = 13) then [nl; [TAB] ++ lit "1" ++ nl]
     else [test_line c])
    ++ read_lines_from [] rest.
Proof.
  unfold test_line.
  change (([c] ++ [TAB] ++ lit "1" ++ nl) ++ rest)
    with (c :: 9 :: 49 :: 10 :: rest).
  case_bool_decide as Hc.
  - destruct Hc as [-> | ->]; reflexivity.
  - cbn [read_lines_from].
    rewrite (proj2 (Z.eqb_neq c 10)), (proj2 (Z.eqb_neq c 13)) by tauto.
    reflexivity.
Qed.

Lemma read_lines_test_lines chars :
  read_lines (concat (test_line <$> chars))
  = concat ((λ c, if bool_decide (c = 10 ∨ c = 13)
                  then [nl; [TAB] ++ lit "1" ++ nl] else [test_line c])
            <$> chars).
Proof.
  unfold read_lines. induction chars as [|c chars IH]; [done|].
  rewrite !fmap_cons. cbn [concat].
  by rewrite read_lines_test_line, IH.
Qed.

Lemma load_test_line (char_freq : gmap (list Z) Z) c :
  load_line char_freq (test_line c)
  = if unnameable c then char_freq else <[[c] := 1]> char_freq.
Proof.
  unfold unnameable, load_line, strip, strip_by, test_line.
  change ([c] ++ [TAB] ++ lit "1" ++ nl) with (c :: 9 :: 49 :: 10 :: []).
  cbn [lstrip_by]. destruct (isspace c) eqn:Hc; [reflexivity|].
  assert (rstrip_by isspace [c; 9; 49; 10] = [c; 9; 49]) as ->.
  { unfold rstrip_by.
    change (reverse [c; 9; 49; 10]) with [10; 49; 9; c]. reflexivity. }
  cbn [orb startswith]. rewrite bool_decide_eq_false_2 by done.
  cbn [orb]. destruct (c =? HASH); [done|].
  unfold line_parts. rewrite bool_decide_eq_true_2
    by (apply elem_of_cons; right; apply elem_of_cons; by left).
  cbn [split]. destruct (isspace_false_neq c Hc) as (H9 & _).
  rewrite (proj2 (Z.eqb_neq c TAB)) by done. reflexivity.
Qed.

Lemma load_test_lines (char_freq : gmap (list Z) Z) chars :
  foldl load_line char_freq (read_lines (concat (test_line <$> chars)))
  = foldl (λ m c, if unnameable c then m else <[[c] := 1]> m) char_freq chars.
Proof.
  rewrite read_lines_test_lines. revert char_freq.
  induction chars as [|c chars IH]; intros char_freq; [done|].
  rewrite fmap_cons. cbn [concat]. rewrite foldl_app, IH. cbn [foldl].
  f_equal. case_bool_decide as Hc.
  - destruct Hc as [-> | ->]; reflexivity.
  - cbn [foldl]. apply load_test_line.
Qed.

Lemma lookup_test_table (char_freq : gmap (list Z) Z) chars key v :
  foldl (λ m c, if unnameable c then m else <[[c] := 1]> m) char_freq chars
    !! key = Some v
  ↔ (v = 1 ∧ ∃ c, key = [c] ∧ c ∈ chars ∧ unnameable c = false)
    ∨ (char_freq !! key = Some v
       ∧ ¬ ∃ c, key = [c] ∧ c ∈ chars ∧ unnameable c = false).
Proof.
  revert char_freq. induction chars as [|c chars IH]; intros char_freq.
  { simpl. split; [|intros [(_ & ? & _ & []%elem_of_nil & _)|[? _]]; done].
    intros ?. right. split; [done|]. by intros (? & _ & []%elem_of_nil & _). }
  cbn [foldl]. rewrite IH. setoid_rewrite elem_of_cons.
  destruct (unnameable c) eqn:Hc.
  - split.
    + intros [(-> & c' & -> & Hin & Hc')|(Hkey & Hnone)].
      * left. eauto 10.
      * right. split; [done|].
        intros (c' & -> & [->|Hin] & Hc'); [congruence|]. apply Hnone. eauto.
    + intros [(-> & c' & -> & [->|Hin] & Hc')|(Hkey & Hnone)].
      * congruence.
      * left. eauto.
      * right. split; [done|]. intros (c' & -> & Hin & Hc'). apply Hnone. eauto.
  - rewrite lookup_insert. split.
    + intros [(-> & c' & -> & Hin & Hc')|(Hkey & Hnone)].
      * left. eauto 10.
      * case_decide as Heq.
        -- injection Hkey as <-. subst key. left. eauto 10.
        -- right. split; [done|].
           intros (c' & -> & [->|Hin] & Hc'); [done|]. apply Hnone. eauto.
    + intros [(-> & c' & -> & [->|Hin] & Hc')|(Hkey & Hnone)].
      * destruct (decide (c ∈ chars)); [left; eauto|].
        right. rewrite decide_True by done. split; [done|].
        intros (c' & [= ->] & ? & _). done.
      * left. eauto.
      * right. rewrite decide_False.
        -- split; [done|]. intros (c' & -> & Hin & Hc'). apply Hnone. eauto.
        -- intros <-. apply Hnone. eauto.
Qed.

Lemma test_script_table (w w' : world) (freq_file_path text : list Z) key v :
  test_script w = Some text →
  file_lines w' freq_file_path = read_lines text →
  load_frequency_data w' freq_file_path !! key = Some v
  ↔ v = 1 ∧ ∃ c, key = [c] ∧ c ∈ test_chars w ∧ unnameable c = false.
Proof.
  unfold test_script. destruct (existsb is_surrogate (test_chars w)); [done|].
  intros [= <-] Hlines.
  unfold load_frequency_data. rewrite Hlines, load_test_lines.
  rewrite lookup_test_table, lookup_empty. naive_solver.
Qed.

(** X16.  The file [test.py] writes, read back by the loader: the table
    gives the frequency 1 to every character of the font except the
    whitespace characters and the comment sign, and has no other entry. *)
Theorem test_script_load (w w' : world) (freq_file_path text : list Z) :
  test_script w = Some text →
  file_lines w' freq_file_path = read_lines text →
  ∀ key v,
    load_frequency_data w' freq_file_path !! key = Some v
    ↔ v = 1 ∧ ∃ c, key = [c] ∧ c ∈ test_chars w ∧ unnameable c = false.
Proof.
  intros Htext Hlines key v.
  exact (test_script_table w w' freq_file_path text key v Htext Hlines).
Qed.

Lemma test_script_load_witness :
  test_script (world_with_cmap [[98; 35; 32; 13; 97]])
  = Some (concat (test_line <$> [13; 32; 35; 97; 98]))
  ∧ load_frequency_data
      (world_with_lines (read_lines (concat (test_line <$> [13; 32; 35; 97; 98]))))
      (lit "freq.txt") !! [97] = Some 1.
Proof.
  split; [by vm_compute|].
  apply (test_script_load (world_with_cmap [[98; 35; 32; 13; 97]])
           (world_with_lines
              (read_lines (concat (test_line <$> [13; 32; 35; 97; 98]))))
           (lit "freq.txt") (concat (test_line <$> [13; 32; 35; 97; 98]))).
  - by vm_compute.
  - reflexivity.
  - split; [done|]. exists 97. split_and!; [done| |done].
    apply (bool_decide_unpack _). by vm_compute.
Defined.

(** ** Ranking with the file of [test.py] *)

Lemma elem_of_test_add_table chars table c :
  c ∈ foldl test_add_code_point chars table
  ↔ c ∈ chars ∨ ∃ code_point, code_point ∈ table ∧ chr code_point = Some c.
Proof.
  revert chars. induction table as [|cp table IH]; intros chars; simpl.
  - split; [auto|]. intros [?|(? & []%elem_of_nil & _)]. done.
  - rewrite IH. setoid_rewrite elem_of_cons. unfold test_add_code_point.
    destruct (chr cp) as [char|] eqn:Hchr.
    + rewrite elem_of_union, elem_of_singleton. naive_solver.
    + naive_solver.
Qed.

Lemma elem_of_test_chars w c :
  c ∈ test_chars w
  ↔ ∃ table code_point,
      table ∈ cmap_tables w test_font_path ∧ code_point ∈ table
      ∧ chr code_point = Some c.
Proof.
  unfold test_chars. rewrite py_sort_Permutation, elem_of_elements.
  generalize (cmap_tables w test_font_path). intros tables.
  assert (∀ chars : gset Z,
    c ∈ foldl (λ chars table, foldl test_add_code_point chars table) chars tables
    ↔ c ∈ chars ∨ ∃ table code_point,
        table ∈ tables ∧ code_point ∈ table ∧ chr code_point = Some c) as H.
  { induction tables as [|table tables IH]; intros chars; simpl.
    - split; [auto|]. intros [?|(? & ? & []%elem_of_nil & _)]. done.
    - rewrite IH, elem_of_test_add_table. setoid_rewrite elem_of_cons.
      naive_solver. }
  rewrite H, elem_of_empty. naive_solver.
Qed.

Lemma get_chars_from_font_test_chars w c :
  c ∈ get_chars_from_font w test_font_path → c ∈ test_chars w.
Proof.
  rewrite elem_of_get_chars_from_font, elem_of_test_chars. unfold font_char.
  naive_solver.
Qed.

Lemma filter_bool_Permutation {A} (f : A → bool) (l : list A) :
  filter (λ x, f x = false) l ++ filter (λ x, f x = true) l ≡ₚ l.
Proof.
  induction l as [|x l IH]; [done|].
  rewrite !filter_cons. destruct (f x) eqn:Hx.
  - rewrite decide_False, decide_True by done.
    by rewrite <- Permutation_middle, IH.
  - rewrite decide_True, decide_False by done. simpl. by rewrite IH.
Qed.

Lemma StronglySorted_filter_lt (P : Z → Prop) `{∀ x, Decision (P x)} (l : list Z) :
  StronglySorted Z.lt l → StronglySorted Z.lt (filter P l).
Proof.
  induction 1 as [|x l _ IH Hx]; [constructor|].
  rewrite filter_cons. case_decide; [|done].
  constructor; [done|].
  rewrite Forall_forall in Hx |- *. intros y [_ Hy]%list_elem_of_filter. auto.
Qed.

Lemma py_sort_pairs_rank_before (g : Z → Z) (chars : list Z) :
  StronglySorted Z.lt chars →
  StronglySorted rank_before (py_sort snd true ((λ c, (c, g c)) <$> chars)).
Proof.
  intros Hsorted.
  apply (StronglySorted_mono (key_then snd true (λ p q, p.1 < q.1))).
  { unfold key_then, key_ordered, rank_before. intros p q. lia. }
  apply py_sort_key_then.
  eapply StronglySorted_fmap; [|exact Hsorted]. by intros x y.
Qed.

(** X17.  Ranking a font with the frequency file [test.py] writes for it:
    the characters come in ascending order of code point with the frequency
    1, except that the whitespace characters and the comment sign, which
    the file cannot name, come last, with the frequency 0. *)
Theorem test_script_ranking (w : world) (a : args) (text : list Z) :
  input a = test_font_path →
  test_script w = Some text →
  file_lines w (freq a) = read_lines text →
  rank_chars (load_frequency_data w (freq a))
             (get_chars_from_font w (input a))
  = ((λ c, (c, 1)) <$> filter (λ c, unnameable c = false)
                              (get_chars_from_font w (input a)))
    ++ ((λ c, (c, 0)) <$> filter (λ c, unnameable c = true)
                                 (get_chars_from_font w (input a))).
Proof.
  intros Hinput Htext Hlines. rewrite Hinput.
  set (chars := get_chars_from_font w test_font_path).
  set (g := λ c : Z, if unnameable c then 0 else 1).
  pose proof (get_chars_from_font_sorted w test_font_path) as Hsorted.
  fold chars in Hsorted.
  assert (rank_chars (load_frequency_data w (freq a)) chars
          = py_sort snd true ((λ c, (c, g c)) <$> chars)) as ->.
  { unfold rank_chars. f_equal. apply list_fmap_ext.
    intros _ c Hc%list_elem_of_lookup_2. f_equal. subst g. simpl.
    destruct (load_frequency_data w (freq a) !! [c]) as [v|] eqn:Hv.
    - apply (test_script_table w w (freq a) text) in Hv
        as (-> & c' & [= <-] & _ & ->); done.
    - destruct (unnameable c) eqn:Hu; [done|].
      assert (load_frequency_data w (freq a) !! [c] = Some 1) as Hsome.
      { apply (test_script_table w w (freq a) text); [done..|].
        split; [done|]. exists c. split_and!; [done| |done].
        by apply get_chars_from_font_test_chars. }
      congruence. }
  assert (((λ c, (c, 1)) <$> filter (λ c, unnameable c = false) chars)
          ++ ((λ c, (c, 0)) <$> filter (λ c, unnameable c = true) chars)
          = (λ c, (c, g c))
              <$> (filter (λ c, unnameable c = false) chars
                   ++ filter (λ c, unnameable c = true) chars)) as Hpairs.
  { rewrite fmap_app. f_equal; apply list_fmap_ext;
      intros _ c [Hu _]%list_elem_of_lookup_2%list_elem_of_filter;
      subst g; simpl; by rewrite Hu. }
  symmetry. apply (StronglySorted_unique_strong rank_before).
  - intros. by apply rank_before_irrefl.
  - apply StronglySorted_app. split_and!.
    + intros p q (c & -> & _)%list_elem_of_fmap (d & -> & _)%list_elem_of_fmap.
      left. simpl. lia.
    + eapply StronglySorted_fmap; [|by apply StronglySorted_filter_lt].
      intros x y Hxy. right. simpl. lia.
    + eapply StronglySorted_fmap; [|by apply StronglySorted_filter_lt].
      intros x y Hxy. right. simpl. lia.
  - by apply py_sort_pairs_rank_before.
  - rewrite Hpairs, py_sort_Permutation.
    by rewrite filter_bool_Permutation.
Qed.

Lemma test_script_ranking_witness :
  rank_chars
    (load_frequency_data (world_after_test [[98; 35; 32; 13; 97]])
                         (freq (sample_args 2)))
    (get_chars_from_font (world_after_test [[98; 35; 32; 13; 97]])
                         (input (sample_args 2)))
  = [(97, 1); (98, 1); (32, 0); (35, 0)].
Proof.
  rewrite (test_script_ranking (world_after_test [[98; 35; 32; 13; 97]])
             (sample_args 2) (concat (test_line <$> [13; 32; 35; 97; 98]))).
  - by vm_compute.
  - by vm_compute.
  - by vm_compute.
  - by vm_compute.
Defined.

Lemma test_chars_sorted w : StronglySorted Z.lt (test_chars w).
Proof.
  apply StronglySorted_le_NoDup_lt.
  - apply (py_sort_sorted id false).
  - unfold test_chars. rewrite py_sort_Permutation. apply NoDup_elements.
Qed.

(** X18.  [test.py] writes one line for every character the font maps,
    each once and in ascending order of code point, with no character
    filtered out; it fails exactly when the font maps a surrogate. *)
Theorem test_script_lines (w : world) :
  StronglySorted Z.lt (test_chars w)
  ∧ (∀ c, c ∈ test_chars w
          ↔ ∃ table code_point,
              table ∈ cmap_tables w test_font_path ∧ code_point ∈ table
              ∧ chr code_point = Some c)
  ∧ (test_script w = None
     ↔ ∃ c, c ∈ test_chars w ∧ 0xD800 ≤ c ≤ 0xDFFF)
  ∧ (∀ text, test_script w = Some text →
       read_lines text
       = concat ((λ c, if bool_decide (c = 10 ∨ c = 13)
                       then [nl; [TAB] ++ lit "1" ++ nl] else [test_line c])
                 <$> test_chars w)).
Proof.
  split_and!.
  - apply test_chars_sorted.
  - apply elem_of_test_chars.
  - unfold test_script.
    destruct (existsb is_surrogate (test_chars w)) eqn:Hex.
    + split; [|done]. intros _.
      apply existsb_exists in Hex as (c & Hc & Hs).
      exists c. split; [by apply list_elem_of_In|].
      unfold is_surrogate in Hs. lia.
    + split; [done|]. intros (c & Hc & Hs).
      assert (existsb is_surrogate (test_chars w) = true); [|congruence].
      apply existsb_exists. exists c. split; [by apply list_elem_of_In|].
      unfold is_surrogate. lia.
  - unfold test_script. intros text.
    destruct (existsb is_surrogate (test_chars w)); [done|].
    intros [= <-]. apply read_lines_test_lines.
Qed.

Lemma test_script_lines_witness :
  test_script (world_with_cmap [[98; 13; 97]; [97; -1]])
  = Some (concat (test_line <$> [13; 97; 98]))
  ∧ read_lines (concat (test_line <$> [13; 97; 98]))
    = [nl; [TAB] ++ lit "1" ++ nl; test_line 97; test_line 98]
  ∧ test_script (world_with_cmap [[97; 0xD800]]) = None.
Proof.
  split; [by vm_compute|]. split; [by vm_compute|].
  apply (proj1 (proj2 (proj2 (test_script_lines
                                (world_with_cmap [[97; 0xD800]]))))).
  exists 0xD800. split; [|lia].
  apply (bool_decide_unpack _). by vm_compute.
Defined.
